(** * bgp-exporter: the neighbor parser of [main.go]

    A shallow embedding of [parseBGP], of the regular expressions it
    classifies lines with, of the global slice [bgpNeighbors] it commits
    records to, and of one iteration of the poll loop of [recordMetrics].

    Conventions.
    - A Go [string] is a [string] of the Standard Library (a sequence of
      8-bit characters).
    - A [float64] field holds a whole number that is not negative, or the
      positive infinity; it is represented by that number, the infinity by
      2^1024, which no double reaches.  The literals 0..6 of the state
      switch are exact, and [strconv.ParseFloat] rounds a run of decimal
      digits to the nearest double, ties to even, as Go does.  The code does
      no arithmetic on these values.
    - A run-time panic (nil dereference, index out of range) is [None] in
      the [option] monad; [parseBGP_total] shows that none is reachable. *)

From Stdlib Require Import String Ascii List ZArith NArith Bool Lia.
Import ListNotations.
Local Open Scope string_scope.
Local Open Scope list_scope.

(** ** Panics as [option] *)

Notation "x <- e ;; k" :=
  (match e with Some x => k | None => None end)
  (at level 61, e at next level, right associativity).

(** ** Package [regexp]: the fragment used by the four patterns

    Every pattern of [main.go] is of the shape [^ a1 a2 ... an $] where an
    atom is a literal text, a greedy repetition [c*] or [c+] of a character
    class, or a capturing group [(c+)] around such a repetition.  The matcher
    is the backtracking one with Go's preference order: a repetition first
    tries to take one more character and only then gives way to what
    follows. *)

Module regexp.

Definition class := ascii -> bool.

Definition in_range (lo hi : N) : class :=
  fun c => ((lo <=? N_of_ascii c) && (N_of_ascii c <=? hi))%N.

(** [\d] *)
Definition digit : class := in_range 48 57.

(** [\w] = [[0-9A-Za-z_]] *)
Definition word : class :=
  fun c => digit c || in_range 65 90 c || in_range 97 122 c || Ascii.eqb c "_".

(** [\s] = [[\t\n\f\r ]] *)
Definition space : class :=
  fun c => let n := N_of_ascii c in
    ((n =? 9) || (n =? 10) || (n =? 12) || (n =? 13) || (n =? 32))%N.

(** [[\d.]] *)
Definition digit_or_dot : class := fun c => digit c || Ascii.eqb c ".".

(** [.] : any character but the line feed *)
Definition dot : class := fun c => negb (N_of_ascii c =? 10)%N.

Inductive atom : Type :=
| Lit (l : string)          (* literal text *)
| Star (c : class)          (* c*   *)
| Plus (c : class)          (* c+   *)
| Group (c : class).        (* (c+) *)

(** An anchored pattern [^...$]. *)
Definition Regexp := list atom.

Fixpoint strip_prefix (l s : string) : option string :=
  match l with
  | EmptyString => Some s
  | String a l' =>
      match s with
      | String b s' => if Ascii.eqb a b then strip_prefix l' s' else None
      | EmptyString => None
      end
  end.

(** Greedy repetition of class [c]: [acc] is the text taken so far, [ok]
    says whether stopping here is allowed, [k] matches the rest of the
    pattern given the text taken and the remaining input. *)
Fixpoint greedy (c : class) (k : string -> string -> option (list string))
    (ok : bool) (acc s : string) : option (list string) :=
  let stop := if ok then k acc s else None in
  match s with
  | String a s' =>
      if c a then
        match greedy c k true (acc ++ String a "") s' with
        | Some r => Some r
        | None => stop
        end
      else stop
  | EmptyString => stop
  end.

(** The captured groups of the leftmost-first match of the whole of [s]. *)
Fixpoint exec (re : Regexp) (s : string) : option (list string) :=
  match re with
  | [] => match s with EmptyString => Some [] | String _ _ => None end
  | Lit l :: re' =>
      match strip_prefix l s with
      | Some s' => exec re' s'
      | None => None
      end
  | Star c :: re' => greedy c (fun _ rest => exec re' rest) true "" s
  | Plus c :: re' => greedy c (fun _ rest => exec re' rest) false "" s
  | Group c :: re' =>
      greedy c (fun m rest => option_map (cons m) (exec re' rest)) false "" s
  end.

(** [re.MatchString(s)] *)
Definition MatchString (re : Regexp) (s : string) : bool :=
  match exec re s with Some _ => true | None => false end.

(** [re.FindStringSubmatch(s)]: the whole match followed by the groups, or
    the nil slice. *)
Definition FindStringSubmatch (re : Regexp) (s : string) : list string :=
  match exec re s with Some gs => s :: gs | None => [] end.

End regexp.

Import regexp.

(** ** The patterns of [main.go] *)

(** [^BGP neighbor is ([\d.]+), .*$] *)
Definition bgpNeighborRegex : Regexp :=
  [Lit "BGP neighbor is "; Group digit_or_dot; Lit ", "; Star dot].

(** [^\s+BGP state = (\w+), .*$] *)
Definition bgpStateRegex : Regexp :=
  [Plus space; Lit "BGP state = "; Group word; Lit ", "; Star dot].

(** [^\s+(\d+) accepted prefixes\w*$] *)
Definition bgpAcceptedPrefixesRegex : Regexp :=
  [Plus space; Group digit; Lit " accepted prefixes"; Star word].

(** [^\s+Connections established (\d+); dropped (\d+)\w*$] *)
Definition bgpConnectionsEstablishedDroppedRegex : Regexp :=
  [Plus space; Lit "Connections established "; Group digit;
   Lit "; dropped "; Group digit; Star word].

(** ** Package [strings] *)

Module strings.

(** [strings.TrimSuffix(s, suffix)]: [s] without the trailing [suffix], or
    [s] itself when it does not end with it. *)
Fixpoint TrimSuffix (s suffix : string) : string :=
  if String.eqb s suffix then ""
  else match s with
       | String c s' => String c (TrimSuffix s' suffix)
       | EmptyString => ""
       end.

(** [strings.Split(s, sep)] for a separator of one character: the pieces
    between the occurrences of [sep], one more than there are separators. *)
Fixpoint Split (s : string) (sep : ascii) : list string :=
  match s with
  | EmptyString => [""]
  | String c s' =>
      if Ascii.eqb c sep then "" :: Split s' sep
      else match Split s' sep with
           | piece :: rest => String c piece :: rest
           | [] => [String c ""]
           end
  end.

End strings.

(** ** Package [strconv] *)

Definition float64 := Z.

Module strconv.

Definition digit_value (c : ascii) : Z := Z.of_N (N_of_ascii c) - 48.

Fixpoint decimal (s : string) (acc : Z) : option Z :=
  match s with
  | EmptyString => Some acc
  | String c s' =>
      if digit c then decimal s' (acc * 10 + digit_value c) else None
  end.

(** 2^53: up to it every whole number is a double. *)
Definition two53 : Z := 9007199254740992%Z.

(** What stands for the positive infinity. *)
Definition inf : Z := (2 ^ 1024)%Z.

(** The double nearest to the whole number [v], ties going to the even
    significand (IEEE 754 round to nearest even, 53 bits of significand);
    the infinity when that is beyond the largest double. *)
Definition nearest64 (v : Z) : float64 :=
  (if v <? two53 then v
   else
     let k := Z.log2 v - 52 in
     let q := Z.shiftr v k in
     let r := v - Z.shiftl q k in
     let half := Z.shiftl 1 (k - 1) in
     let q' := if (half <? r) || ((r =? half) && Z.odd q) then q + 1 else q in
     let x := Z.shiftl q' k in
     if inf <=? x then inf else x)%Z.

(** [strconv.ParseFloat(s, 64)] on the texts a group [(\d+)] captures: the
    value and whether [err] is nil.  A run of decimal digits gives the
    nearest double, and the infinity with a range error when it is too
    large.  Any text that is not a non-empty run of decimal digits is given
    the result of a syntax error, [(0, err)]; Go accepts further numeric
    syntaxes (signs, fractions, exponents), none of which contains only
    digits. *)
Definition ParseFloat (s : string) : float64 * bool :=
  match s with
  | EmptyString => (0%Z, false)
  | String _ _ =>
      match decimal s 0 with
      | Some v => (nearest64 v, (nearest64 v <? inf)%Z)
      | None => (0%Z, false)
      end
  end.

End strconv.

(** ** Package [net]

    [net.IP] is a byte slice; [ParseIP] yields the nil slice or, for a
    dotted quad, the address made by [IPv4(a, b, c, d)].  Only these two
    shapes are reachable from [parseBGP], whose pattern captures digits and
    dots, so an [IP] is [None] (nil) or the four octets.  The functions
    follow Go's [net] package (as of Go 1.17, which rejects octets written
    with leading zeros). *)

Module net.

Definition IP := option (Z * Z * Z * Z).

Definition big : Z := 16777215.   (* 0xFFFFFF *)

(** [dtoi(s)]: decimal to integer; returns the number, the count of
    characters consumed and success. *)
Fixpoint dtoi_loop (s : string) (n : Z) (i : nat) : Z * nat * bool :=
  let done := match i with O => (0%Z, O, false) | S _ => (n, i, true) end in
  match s with
  | String c s' =>
      if digit c then
        let n' := (n * 10 + strconv.digit_value c)%Z in
        if (big <=? n')%Z then (big, i, false) else dtoi_loop s' n' (S i)
      else done
  | EmptyString => done
  end.

Definition dtoi (s : string) : Z * nat * bool := dtoi_loop s 0 0.

(** [s[c:]] *)
Fixpoint skip (c : nat) (s : string) : string :=
  match c, s with
  | S c', String _ s' => skip c' s'
  | _, _ => s
  end.

(** The loop [for i := 0; i < IPv4len; i++] of [parseIPv4], with [k]
    iterations left and [p] the octets read so far. *)
Fixpoint parseIPv4_loop (k : nat) (first : bool) (s : string) (p : list Z)
    : IP :=
  match k with
  | O =>
      match s, p with
      | EmptyString, [a; b; c; d] => Some (a, b, c, d)
      | _, _ => None
      end
  | S k' =>
      match s with
      | EmptyString => None                       (* missing octets *)
      | String c0 s0 =>
          s1 <- (if first then Some s
                 else if Ascii.eqb c0 "." then Some s0 else None) ;;
          let '(n, c, ok) := dtoi s1 in
          if negb ok || (255 <? n)%Z then None
          else if (1 <? c)%nat &&
                  match s1 with String d _ => Ascii.eqb d "0" | _ => false end
          then None                               (* leading zeroes *)
          else parseIPv4_loop k' false (skip c s1) (p ++ [n])
      end
  end.

Definition parseIPv4 (s : string) : IP := parseIPv4_loop 4 true s [].

(** The IPv6 branch of [ParseIP] is outside the model: its result is not a
    dotted quad, and it is never taken on a text matched by [[\d.]+]
    (see [neighbor_capture_parse]). *)
Definition parseIPv6 (s : string) : IP := None.

(** Which parser the loop of [ParseIP] hands the text to: the one for the
    first ['.'] or [':'] it meets. *)
Inductive dispatch : Type := ToIPv4 | ToIPv6 | NoSeparator.

Fixpoint first_separator (s : string) : dispatch :=
  match s with
  | EmptyString => NoSeparator
  | String c s' =>
      if Ascii.eqb c "." then ToIPv4
      else if Ascii.eqb c ":" then ToIPv6
      else first_separator s'
  end.

(** [net.ParseIP(s)] *)
Definition ParseIP (s : string) : IP :=
  match first_separator s with
  | ToIPv4 => parseIPv4 s
  | ToIPv6 => parseIPv6 s
  | NoSeparator => None
  end.

Definition digit_char (v : Z) : ascii := ascii_of_N (Z.to_N (48 + v)).

(** Decimal text of one byte, without leading zeros. *)
Definition appendDecimal (x : Z) : string :=
  ((if (100 <=? x)%Z then String (digit_char (x / 100)) "" else "") ++
   (if (10 <=? x)%Z then String (digit_char (x / 10 mod 10)) "" else "") ++
   String (digit_char (x mod 10)) "")%string.

(** [ip.String()] *)
Definition String_ (ip : IP) : string :=
  match ip with
  | None => "<nil>"
  | Some (a, b, c, d) =>
      appendDecimal a ++ "." ++ appendDecimal b ++ "." ++
      appendDecimal c ++ "." ++ appendDecimal d
  end.

End net.

(** ** [main.go] *)

(** [type BgpNeighbor struct] *)
Record BgpNeighbor : Type := mkBgpNeighbor {
  IP : net.IP;
  State : float64;
  AcceptedPrefixes : float64;
  ConnectionsEstablished : float64;
  ConnectionsDropped : float64
}.

(** [new(BgpNeighbor)]: every field at its zero value. *)
Definition new_BgpNeighbor : BgpNeighbor :=
  mkBgpNeighbor None 0%Z 0%Z 0%Z 0%Z.

Definition set_IP (b : BgpNeighbor) (v : net.IP) : BgpNeighbor :=
  mkBgpNeighbor v (State b) (AcceptedPrefixes b)
    (ConnectionsEstablished b) (ConnectionsDropped b).
Definition set_State (b : BgpNeighbor) (v : float64) : BgpNeighbor :=
  mkBgpNeighbor (IP b) v (AcceptedPrefixes b)
    (ConnectionsEstablished b) (ConnectionsDropped b).
Definition set_AcceptedPrefixes (b : BgpNeighbor) (v : float64) : BgpNeighbor :=
  mkBgpNeighbor (IP b) (State b) v
    (ConnectionsEstablished b) (ConnectionsDropped b).
Definition set_ConnectionsEstablished (b : BgpNeighbor) (v : float64)
    : BgpNeighbor :=
  mkBgpNeighbor (IP b) (State b) (AcceptedPrefixes b) v (ConnectionsDropped b).
Definition set_ConnectionsDropped (b : BgpNeighbor) (v : float64)
    : BgpNeighbor :=
  mkBgpNeighbor (IP b) (State b) (AcceptedPrefixes b)
    (ConnectionsEstablished b) v.

(** [l[i]], which panics out of range. *)
Definition index (l : list string) (i : nat) : option string := nth_error l i.

(** The [switch] of lines 126-141: [state] starts at the zero value and no
    case is taken for a word outside the table. *)
Definition state_switch (w : string) : float64 :=
  if String.eqb w "Idle" then 1%Z
  else if String.eqb w "Connect" then 2%Z
  else if String.eqb w "Active" then 3%Z
  else if String.eqb w "Opensent" then 4%Z
  else if String.eqb w "Openconfirm" then 5%Z
  else if String.eqb w "Established" then 6%Z
  else 0%Z.

(** The key a stored record is looked up by, [bgpNeighbors[i].IP.String()]. *)
Definition key (n : BgpNeighbor) : string := net.String_ (IP n).

(** Lines 157-162: the scan over [bgpNeighbors] that overwrites every
    element whose key is [neigh] and reports whether there was one. *)
Fixpoint scan (neigh : string) (b : BgpNeighbor) (l : list BgpNeighbor)
    (found : bool) : list BgpNeighbor * bool :=
  match l with
  | [] => ([], found)
  | n :: l' =>
      if String.eqb (key n) neigh then
        let (r, f) := scan neigh b l' true in (b :: r, f)
      else
        let (r, f) := scan neigh b l' found in (n :: r, f)
  end.

(** Lines 156-165: the commit of [*bgpNeigh] into [bgpNeighbors]. *)
Definition upsert (neigh : string) (b : BgpNeighbor)
    (bgpNeighbors : list BgpNeighbor) : list BgpNeighbor :=
  let (l, found) := scan neigh b bgpNeighbors false in
  if found then l else l ++ [b].

(** The two locals of [parseBGP]. *)
Record locals : Type := mkLocals {
  bgpNeigh : option BgpNeighbor;      (* [*BgpNeighbor], [None] is nil *)
  neigh : string
}.

(** The body of the [for ... range] loop, lines 107-167, on the locals and
    the global slice.  The commit of lines 156-165 is the parameter
    [commit], so that the same body serves for the slice ([upsert]) and for
    the record of what was committed ([record]). *)
Section LoopBody.

Variable Store : Type.
Variable commit : string -> BgpNeighbor -> Store -> Store.

Definition loop_body_with (line : string) (st : locals * Store)
    : option (locals * Store) :=
  let '(l, bgpNeighbors) := st in
  l <- (if MatchString bgpNeighborRegex line then
          a <- index (FindStringSubmatch bgpNeighborRegex line) 1 ;;
          Some (mkLocals (Some new_BgpNeighbor) a)
        else Some l) ;;
  if String.eqb (neigh l) "" then Some (l, bgpNeighbors)
  else
    b <- bgpNeigh l ;;
    let b := set_IP b (net.ParseIP (neigh l)) in
    b <- (if MatchString bgpStateRegex line then
            w <- index (FindStringSubmatch bgpStateRegex line) 1 ;;
            Some (set_State b (state_switch w))
          else Some b) ;;
    b <- (if MatchString bgpAcceptedPrefixesRegex line then
            p <- index (FindStringSubmatch bgpAcceptedPrefixesRegex line) 1 ;;
            Some (set_AcceptedPrefixes b (fst (strconv.ParseFloat p)))
          else Some b) ;;
    if MatchString bgpConnectionsEstablishedDroppedRegex line then
      e <- index (FindStringSubmatch bgpConnectionsEstablishedDroppedRegex line) 1 ;;
      d <- index (FindStringSubmatch bgpConnectionsEstablishedDroppedRegex line) 2 ;;
      let b := set_ConnectionsEstablished b (fst (strconv.ParseFloat e)) in
      let b := set_ConnectionsDropped b (fst (strconv.ParseFloat d)) in
      Some (mkLocals (Some b) (neigh l), commit (neigh l) b bgpNeighbors)
    else Some (mkLocals (Some b) (neigh l), bgpNeighbors).

(** [for _, line := range lines { body }] *)
Fixpoint range_with (lines : list string) (st : locals * Store)
    : option (locals * Store) :=
  match lines with
  | [] => Some st
  | line :: rest => st' <- loop_body_with line st ;; range_with rest st'
  end.

End LoopBody.
Arguments loop_body_with {Store} commit line st.
Arguments range_with {Store} commit lines st.

Definition loop_body := loop_body_with upsert.
Definition range := range_with upsert.

(** The locals at the start of [parseBGP]: [var bgpNeigh *BgpNeighbor] and
    [neigh := ""]. *)
Definition start : locals := mkLocals None "".

Definition newline : ascii := ascii_of_N 10.

(** The lines [parseBGP] walks over. *)
Definition lines_of (s : string) : list string :=
  strings.Split (strings.TrimSuffix s (String newline "")) newline.

(** [parseBGP(s)], as a function of the global [bgpNeighbors]. *)
Definition parseBGP (s : string) (bgpNeighbors : list BgpNeighbor)
    : option (list BgpNeighbor) :=
  st <- range (lines_of s) (start, bgpNeighbors) ;;
  Some (snd st).

(** The commits of a run, in order: the identity text and the record each
    was made with. *)
Definition commit_log := list (string * BgpNeighbor).

Definition record (k : string) (b : BgpNeighbor) (log : commit_log)
    : commit_log := log ++ [(k, b)].

Definition commits_from (lines : list string) (l : locals)
    : option commit_log :=
  st <- range_with record lines (l, ([] : commit_log)) ;; Some (snd st).

Definition commits (s : string) : option commit_log :=
  commits_from (lines_of s) start.

(** ** The poll loop of [recordMetrics] *)

(** What [cmd.Run()] gives: the two captured streams, or an error. *)
Inductive cmd_result : Type :=
| Ran (stdout stderr : string)
| Failed (err : string).

(** How a call ends: it returns, the process exits through [log.Fatalf]
    with the message logged, or it panics. *)
Inductive outcome (A : Type) : Type :=
| Ret (a : A)
| Fatal (msg : string)
| Panic.
Arguments Ret {A} a.
Arguments Fatal {A} msg.
Arguments Panic {A}.

(** [getBgpNeighbors()], lines 90-101. *)
Definition getBgpNeighbors (r : cmd_result) : outcome (string * string) :=
  match r with
  | Failed err =>
      Fatal ("Failed to execute vtysh command: " ++ err ++ String newline "")
  | Ran sout serr => Ret (sout, serr)
  end.

(** A [GaugeVec] with the single label [ip]: label value to gauge value. *)
Definition GaugeVec := list (string * float64).

(** [g.With(prometheus.Labels{"ip": ip}).Set(v)] *)
Fixpoint Set_ (g : GaugeVec) (ip : string) (v : float64) : GaugeVec :=
  match g with
  | [] => [(ip, v)]
  | (k, x) :: g' =>
      if String.eqb k ip then (k, v) :: g' else (k, x) :: Set_ g' ip v
  end.

(** The package-level variables. *)
Record globals : Type := mkGlobals {
  bgpNeighbors : list BgpNeighbor;
  bgpNeighborState : GaugeVec;
  bgpNeighborAcceptedPrefixes : GaugeVec;
  bgpNeighborConnectionsEstablished : GaugeVec;
  bgpNeighborConnectionsDropped : GaugeVec
}.

(** Lines 79-84: the four gauges of every stored record. *)
Definition export (g : globals) : globals :=
  fold_left
    (fun g n =>
       let ip := net.String_ (IP n) in
       mkGlobals (bgpNeighbors g)
         (Set_ (bgpNeighborState g) ip (State n))
         (Set_ (bgpNeighborAcceptedPrefixes g) ip (AcceptedPrefixes n))
         (Set_ (bgpNeighborConnectionsEstablished g) ip
            (ConnectionsEstablished n))
         (Set_ (bgpNeighborConnectionsDropped g) ip (ConnectionsDropped n)))
    (bgpNeighbors g) g.

(** One turn of the [for] loop of [recordMetrics], lines 76-85, given what
    the command does this time. *)
Definition cycle (r : cmd_result) (g : globals) : outcome globals :=
  match getBgpNeighbors r with
  | Ret (o, _) =>
      match parseBGP o (bgpNeighbors g) with
      | Some ns =>
          Ret (export (mkGlobals ns (bgpNeighborState g)
                         (bgpNeighborAcceptedPrefixes g)
                         (bgpNeighborConnectionsEstablished g)
                         (bgpNeighborConnectionsDropped g)))
      | None => Panic
      end
  | Fatal msg => Fatal msg
  | Panic => Panic
  end.

(** How the process stands after some turns of the loop. *)
Inductive status : Type :=
| Running
| Exited (code : Z) (logged : string)
| Crashed.

(** The loop of [recordMetrics] over the successive results of the command:
    the globals when the results are used up or the process has ended, and
    how it stands. *)
Fixpoint recordMetrics (rs : list cmd_result) (g : globals)
    : globals * status :=
  match rs with
  | [] => (g, Running)
  | r :: rs' =>
      match cycle r g with
      | Ret g' => recordMetrics rs' g'
      | Fatal msg => (g, Exited 1 msg)
      | Panic => (g, Crashed)
      end
  end.

(** * Vocabulary of the properties *)

(** ** About the matcher *)

(** Every character of [s] is in class [c]. *)
Fixpoint all (c : class) (s : string) : bool :=
  match s with
  | EmptyString => true
  | String a s' => c a && all c s'
  end.

(** Number of capturing groups of a pattern. *)
Fixpoint groups (re : Regexp) : nat :=
  match re with
  | [] => O
  | Group _ :: re' => S (groups re')
  | _ :: re' => groups re'
  end.

(** The first character after the leading white space. *)
Fixpoint first_nonspace (s : string) : option ascii :=
  match s with
  | EmptyString => None
  | String a s' => if space a then first_nonspace s' else Some a
  end.

(** Whether a line starts with white space, and its first character that is
    not white space: enough to tell the four patterns apart. *)
Definition shape (line : string) : option (bool * ascii) :=
  match line with
  | EmptyString => None
  | String a _ => option_map (pair (space a)) (first_nonspace line)
  end.

(** ** About [net] *)

(** Where [dtoi] stops at once. *)
Definition stops (s : string) : Prop :=
  match s with
  | EmptyString => True
  | String ch _ => digit ch = false
  end.

(** ** About the loop *)

(** The locals agree with each other: once an address has been captured the
    pointer is set and, from the end of that turn on, the record carries the
    parsed address. *)
Definition consistent (l : locals) : Prop :=
  neigh l <> "" ->
  exists b, bgpNeigh l = Some b /\ IP b = net.ParseIP (neigh l).

(** The record a counters line completes. *)
Definition completed (b : BgpNeighbor) (a e d : string) : BgpNeighbor :=
  set_ConnectionsDropped
    (set_ConnectionsEstablished (set_IP b (net.ParseIP a))
       (fst (strconv.ParseFloat e)))
    (fst (strconv.ParseFloat d)).

(** The store after the commits of [log], in order. *)
Definition replay {Store} (commit : string -> BgpNeighbor -> Store -> Store)
    (log : commit_log) (st : Store) : Store :=
  fold_left (fun s kb => commit (fst kb) (snd kb) s) log st.

(** Every commit of the log is made with the record of its address. *)
Definition log_ok (log : commit_log) : Prop :=
  Forall (fun kb => IP (snd kb) = net.ParseIP (fst kb)) log.

(** The store after [parseBGP] on each block in turn. *)
Fixpoint polls (blocks : list string) (store : list BgpNeighbor)
    : option (list BgpNeighbor) :=
  match blocks with
  | [] => Some store
  | s :: rest => store' <- parseBGP s store ;; polls rest store'
  end.

(** The commits of all the blocks, in order. *)
Fixpoint poll_commits (blocks : list string) : option commit_log :=
  match blocks with
  | [] => Some []
  | s :: rest =>
      log <- commits s ;; logs <- poll_commits rest ;; Some (log ++ logs)
  end.

(** ** About the store *)

(** Some stored record is looked up by [k]. *)
Definition present (k : string) (store : list BgpNeighbor) : Prop :=
  exists n, In n store /\ key n = k.

(** What the scan does to one element. *)
Definition overwrite (k : string) (b n : BgpNeighbor) : BgpNeighbor :=
  if String.eqb (key n) k then b else n.

(** The record has a parsed address. *)
Definition parsed (n : BgpNeighbor) : bool :=
  match IP n with Some _ => true | None => false end.

(** The stored address is what its own text parses to. *)
Definition faithful (n : BgpNeighbor) : Prop := IP n = net.ParseIP (key n).

(** The store holds records made by [parseBGP], and no two of those with a
    parsed address have the same key. *)
Definition store_ok (store : list BgpNeighbor) : Prop :=
  Forall faithful store /\ NoDup (map key (filter parsed store)).

(** ** About the blocks *)

(** The words of the [switch]. *)
Definition state_words : list string :=
  ["Idle"; "Connect"; "Active"; "Opensent"; "Openconfirm"; "Established"].

(** A complete entry: a header, a state line, an accepted-prefixes line and
    a counters line, in that order, with an address that parses; [a] is the
    captured address, [vn], [ve] and [vd] are the numbers that the captured
    digits denote, and [r] is the record made of the captures: the parsed
    address, the ordinal of the word, and the doubles nearest to the three
    numbers. *)
Inductive complete_entry : list string -> string -> BgpNeighbor -> Prop :=
| CompleteEntry h s p c a w n e d ip vn ve vd :
    FindStringSubmatch bgpNeighborRegex h = [h; a] ->
    FindStringSubmatch bgpStateRegex s = [s; w] ->
    FindStringSubmatch bgpAcceptedPrefixesRegex p = [p; n] ->
    FindStringSubmatch bgpConnectionsEstablishedDroppedRegex c = [c; e; d] ->
    net.ParseIP a = Some ip ->
    strconv.decimal n 0 = Some vn ->
    strconv.decimal e 0 = Some ve ->
    strconv.decimal d 0 = Some vd ->
    complete_entry [h; s; p; c] a
      (mkBgpNeighbor (Some ip) (state_switch w)
         (strconv.nearest64 vn)
         (strconv.nearest64 ve) (strconv.nearest64 vd)).

(** A block made of complete entries, with the address and the record of
    each. *)
Inductive well_formed_block : list string -> commit_log -> Prop :=
| WellFormedNil : well_formed_block [] []
| WellFormedCons ls a r lines entries :
    complete_entry ls a r ->
    well_formed_block lines entries ->
    well_formed_block (ls ++ lines) ((a, r) :: entries).

(** The line matches none of the four patterns. *)
Definition unrecognized (line : string) : Prop :=
  MatchString bgpNeighborRegex line = false /\
  MatchString bgpStateRegex line = false /\
  MatchString bgpAcceptedPrefixesRegex line = false /\
  MatchString bgpConnectionsEstablishedDroppedRegex line = false.

(** [padded lines lines']: [lines'] is [lines] with unrecognized lines
    inserted, at any positions. *)
Inductive padded : list string -> list string -> Prop :=
| PaddedNil : padded [] []
| PaddedKeep x lines lines' :
    padded lines lines' -> padded (x :: lines) (x :: lines')
| PaddedInsert x lines lines' :
    unrecognized x -> padded lines lines' -> padded lines (x :: lines').

(** ** Example inputs *)

(** The four lines of the example of the specification, as one block. *)
Definition example_block : string :=
  "BGP neighbor is 10.0.0.1, remote AS ..." ++ String newline
  ("  BGP state = Established, up for 3d" ++ String newline
  ("  5 accepted prefixes" ++ String newline
  ("  Connections established 12; dropped 1" ++ String newline ""))).

(** The record the specification gives for that block. *)
Definition example_record : BgpNeighbor :=
  mkBgpNeighbor (Some (10, 0, 0, 1)%Z) 6%Z 5%Z 12%Z 1%Z.

(** The example with a second state line, whose word is not in the table. *)
Definition unknown_state_block : string :=
  "BGP neighbor is 10.0.0.1, remote AS ..." ++ String newline
  ("  BGP state = Established, up for 3d" ++ String newline
  ("  BGP state = Unknown, up for 3d" ++ String newline
  ("  Connections established 12; dropped 1" ++ String newline ""))).

(** A header followed by a counters line, an accepted-prefixes line and a
    second counters line. *)
Definition recommit_block : string :=
  "BGP neighbor is 10.0.0.1, remote AS ..." ++ String newline
  ("  Connections established 12; dropped 1" ++ String newline
  ("  7 accepted prefixes" ++ String newline
  ("  Connections established 13; dropped 2" ++ String newline ""))).

(** A header with an address of three octets, and a counters line. *)
Definition short_address_block : string :=
  "BGP neighbor is 10.0.0, remote AS ..." ++ String newline
  ("  Connections established 12; dropped 1" ++ String newline "").

(** The example with a blank line before the header and after the prefixes
    line, and two lines of other text. *)
Definition padded_example_block : string :=
  String newline
  ("BGP neighbor is 10.0.0.1, remote AS ..." ++ String newline
  ("  Description: core" ++ String newline
  ("  BGP state = Established, up for 3d" ++ String newline
  ("  5 accepted prefixes" ++ String newline
  (String newline
  ("  Connections established 12; dropped 1" ++ String newline
  ("Read thread: on" ++ String newline ""))))))).

(** The example with 2^53 + 1 accepted prefixes. *)
Definition large_count_block : string :=
  "BGP neighbor is 10.0.0.1, remote AS ..." ++ String newline
  ("  BGP state = Established, up for 3d" ++ String newline
  ("  9007199254740993 accepted prefixes" ++ String newline
  ("  Connections established 12; dropped 1" ++ String newline ""))).

(** [short_address_block] at a later poll, with other counts. *)
Definition short_address_block_later : string :=
  "BGP neighbor is 10.0.0, remote AS ..." ++ String newline
  ("  Connections established 13; dropped 2" ++ String newline "").

(** Two polls that read [short_address_block]. *)
Definition two_short_address_polls : list string :=
  [short_address_block; short_address_block].

(** ** About runs of a class *)

(** [s] is empty or starts outside the class [c]: a repetition of [c]
    cannot go on into it. *)
Definition stops_at (c : class) (s : string) : Prop :=
  match s with
  | EmptyString => True
  | String a _ => c a = false
  end.

(** The longest prefix of [s] within the class [c], and what follows it. *)
Fixpoint take_while (c : class) (s : string) : string :=
  match s with
  | EmptyString => ""
  | String a s' => if c a then String a (take_while c s') else ""
  end.

Fixpoint drop_while (c : class) (s : string) : string :=
  match s with
  | EmptyString => ""
  | String a s' => if c a then drop_while c s' else s
  end.

(** ** About the records and the gauges *)

(** The fields of the record are within what the code can give them: a
    state from 0 to 6 and counts that are not negative. *)
Definition bounded (b : BgpNeighbor) : Prop :=
  (0 <= State b <= 6)%Z /\ (0 <= AcceptedPrefixes b)%Z /\
  (0 <= ConnectionsEstablished b)%Z /\ (0 <= ConnectionsDropped b)%Z.

(** The record in progress, if there is one, is [bounded]. *)
Definition locals_bounded (l : locals) : Prop :=
  forall b, bgpNeigh l = Some b -> bounded b.

(** The value of the gauge of label [ip], if it has been set. *)
Fixpoint Get (g : GaugeVec) (ip : string) : option float64 :=
  match g with
  | [] => None
  | (k, x) :: g' => if String.eqb k ip then Some x else Get g' ip
  end.

(** The four gauges of label [k]. *)
Definition gauges_at (g : globals) (k : string)
    : option float64 * option float64 * option float64 * option float64 :=
  (Get (bgpNeighborState g) k, Get (bgpNeighborAcceptedPrefixes g) k,
   Get (bgpNeighborConnectionsEstablished g) k,
   Get (bgpNeighborConnectionsDropped g) k).

(** The body of the loop of lines 79-84: the four gauges of one record. *)
Definition publish (g : globals) (n : BgpNeighbor) : globals :=
  let ip := net.String_ (IP n) in
  mkGlobals (bgpNeighbors g)
    (Set_ (bgpNeighborState g) ip (State n))
    (Set_ (bgpNeighborAcceptedPrefixes g) ip (AcceptedPrefixes n))
    (Set_ (bgpNeighborConnectionsEstablished g) ip (ConnectionsEstablished n))
    (Set_ (bgpNeighborConnectionsDropped g) ip (ConnectionsDropped n)).

(** The four gauges of label [k] have been set. *)
Definition labelled (g : globals) (k : string) : Prop :=
  Get (bgpNeighborState g) k <> None /\
  Get (bgpNeighborAcceptedPrefixes g) k <> None /\
  Get (bgpNeighborConnectionsEstablished g) k <> None /\
  Get (bgpNeighborConnectionsDropped g) k <> None.

(** * Properties *)

(** ** Strings *)

Lemma append_nil_r (s : string) : (s ++ "")%string = s.
Proof. induction s as [|a s IH]; simpl; [reflexivity | now rewrite IH]. Qed.

Lemma append_assoc (s t u : string) :
  ((s ++ t) ++ u)%string = (s ++ (t ++ u))%string.
Proof. induction s as [|a s IH]; simpl; [reflexivity | now rewrite IH]. Qed.

(** ** The matcher *)

Lemma strip_prefix_app (l s s' : string) :
  strip_prefix l s = Some s' -> s = (l ++ s')%string.
Proof.
  revert s; induction l as [|a l IH]; intros s H; simpl in *.
  - now inversion H.
  - destruct s as [|b s]; [discriminate|].
    destruct (Ascii.eqb_spec a b) as [->|]; [|discriminate].
    now rewrite (IH _ H).
Qed.

(** What a successful repetition took: a run [m] of characters of the
    class, not empty unless stopping at once was allowed, after which the
    continuation succeeded. *)
Lemma greedy_sound c k ok acc s r :
  greedy c k ok acc s = Some r ->
  exists m rest,
    s = (m ++ rest)%string /\ all c m = true /\
    (ok = true \/ m <> "") /\ k (acc ++ m)%string rest = Some r.
Proof.
  revert ok acc; induction s as [|a s IH]; intros ok acc H; simpl in H.
  - destruct ok; [|discriminate].
    exists "", ""; repeat split; auto; now rewrite append_nil_r.
  - assert (Hstop : (if ok then k acc (String a s) else None) = Some r ->
                    exists m rest,
                      String a s = (m ++ rest)%string /\ all c m = true /\
                      (ok = true \/ m <> "") /\
                      k (acc ++ m)%string rest = Some r).
    { intros Hs; destruct ok; [|discriminate].
      exists "", (String a s); repeat split; auto; now rewrite append_nil_r. }
    destruct (c a) eqn:Hc; [|now apply Hstop].
    destruct (greedy c k true (acc ++ String a "") s) as [r'|] eqn:Hg;
      [|now apply Hstop].
    injection H as <-.
    destruct (IH _ _ Hg) as (m & rest & -> & Hall & _ & Hk).
    exists (String a m), rest; simpl; rewrite Hc, Hall.
    rewrite append_assoc in Hk; simpl in Hk.
    repeat split; auto. right; discriminate.
Qed.

Lemma exec_groups re : forall s gs,
  exec re s = Some gs -> List.length gs = groups re.
Proof.
  induction re as [|[l|c|c|c] re IH]; intros s gs H; simpl in H.
  - destruct s; [now inversion H | discriminate].
  - destruct (strip_prefix l s); [eauto | discriminate].
  - apply greedy_sound in H as (m & rest & _ & _ & _ & H); eauto.
  - apply greedy_sound in H as (m & rest & _ & _ & _ & H); eauto.
  - apply greedy_sound in H as (m & rest & _ & _ & _ & H).
    destruct (exec re rest) as [gs'|] eqn:He; [|discriminate].
    injection H as <-; simpl; f_equal; eauto.
Qed.

(** The text taken by a leading group: not empty, within the class. *)
Lemma exec_group c re s gs :
  exec (Group c :: re) s = Some gs ->
  exists m rest gs',
    gs = m :: gs' /\ s = (m ++ rest)%string /\ m <> "" /\
    all c m = true /\ exec re rest = Some gs'.
Proof.
  simpl; intros H.
  apply greedy_sound in H as (m & rest & -> & Hall & [Hok|Hm] & H);
    [discriminate|].
  simpl in H. destruct (exec re rest) as [gs'|] eqn:He; [|discriminate].
  injection H as <-. now exists m, rest, gs'.
Qed.

Lemma first_nonspace_app m a rest :
  all space m = true -> space a = false ->
  first_nonspace (m ++ String a rest) = Some a.
Proof.
  induction m as [|b m IH]; simpl; intros Hm Ha.
  - now rewrite Ha.
  - apply andb_prop in Hm as [Hb Hm]. rewrite Hb; auto.
Qed.

(** A pattern that starts with [\s+]: the line starts with white space, and
    the rest of the pattern matches from some point after a run of it. *)
Lemma exec_plus_space re line gs :
  exec (Plus space :: re) line = Some gs ->
  exists m rest,
    line = (m ++ rest)%string /\ m <> "" /\ all space m = true /\
    exec re rest = Some gs.
Proof.
  simpl; intros H.
  apply greedy_sound in H as (m & rest & -> & Hall & [Hok|Hm] & H);
    [discriminate|].
  now exists m, rest.
Qed.

Lemma shape_spaced m a rest :
  m <> "" -> all space m = true -> space a = false ->
  shape (m ++ String a rest) = Some (true, a).
Proof.
  intros Hm Hall Ha. unfold shape.
  rewrite (first_nonspace_app m a rest Hall Ha).
  destruct m as [|b m]; [congruence|]. simpl in *.
  apply andb_prop in Hall as [-> _]. reflexivity.
Qed.

Lemma shape_header line :
  MatchString bgpNeighborRegex line = true -> shape line = Some (false, "B"%char).
Proof.
  unfold MatchString, bgpNeighborRegex. cbn [exec].
  destruct (strip_prefix "BGP neighbor is " line) as [r|] eqn:H; [|discriminate].
  intros _. apply strip_prefix_app in H as ->. reflexivity.
Qed.

Lemma shape_state line :
  MatchString bgpStateRegex line = true -> shape line = Some (true, "B"%char).
Proof.
  unfold MatchString.
  destruct (exec bgpStateRegex line) as [gs|] eqn:H; [intros _|discriminate].
  apply exec_plus_space in H as (m & rest & -> & Hm & Hall & H).
  cbn [exec] in H.
  destruct (strip_prefix "BGP state = " rest) as [r|] eqn:Hp; [|discriminate].
  apply strip_prefix_app in Hp as ->. now apply shape_spaced.
Qed.

Lemma shape_counters line :
  MatchString bgpConnectionsEstablishedDroppedRegex line = true ->
  shape line = Some (true, "C"%char).
Proof.
  unfold MatchString.
  destruct (exec bgpConnectionsEstablishedDroppedRegex line) as [gs|] eqn:H;
    [intros _|discriminate].
  apply exec_plus_space in H as (m & rest & -> & Hm & Hall & H).
  cbn [exec] in H.
  destruct (strip_prefix "Connections established " rest) as [r|] eqn:Hp;
    [|discriminate].
  apply strip_prefix_app in Hp as ->. now apply shape_spaced.
Qed.

Lemma digit_not_space a : digit a = true -> space a = false.
Proof.
  unfold digit, in_range, space. intros H.
  apply andb_prop in H as [H1 H2].
  apply N.leb_le in H1, H2.
  repeat (apply orb_false_intro); apply N.eqb_neq; lia.
Qed.

Lemma shape_prefixes line :
  MatchString bgpAcceptedPrefixesRegex line = true ->
  exists d, digit d = true /\ shape line = Some (true, d).
Proof.
  unfold MatchString.
  destruct (exec bgpAcceptedPrefixesRegex line) as [gs|] eqn:H;
    [intros _|discriminate].
  apply exec_plus_space in H as (m & rest & -> & Hm & Hall & H).
  apply exec_group in H as (n & rest' & gs' & _ & -> & Hn & Hd & _).
  destruct n as [|d n]; [congruence|]. simpl in Hd.
  apply andb_prop in Hd as [Hd _].
  exists d; split; [assumption|].
  simpl. apply shape_spaced; auto using digit_not_space.
Qed.

(** ** The four patterns *)

Lemma MatchString_submatch re line :
  MatchString re line = true ->
  exists gs, FindStringSubmatch re line = line :: gs /\
             List.length gs = groups re.
Proof.
  unfold MatchString, FindStringSubmatch.
  destruct (exec re line) as [gs|] eqn:H; [intros _|discriminate].
  exists gs; split; [reflexivity | eapply exec_groups; eassumption].
Qed.

Lemma submatch_MatchString re line x xs :
  FindStringSubmatch re line = x :: xs -> MatchString re line = true.
Proof.
  unfold MatchString, FindStringSubmatch.
  now destruct (exec re line).
Qed.

Lemma no_MatchString_submatch re line :
  MatchString re line = false -> FindStringSubmatch re line = [].
Proof.
  unfold MatchString, FindStringSubmatch.
  now destruct (exec re line).
Qed.

Lemma one_group (gs : list string) :
  List.length gs = 1%nat -> exists a, gs = [a].
Proof. destruct gs as [|a [|? ?]]; try discriminate. now exists a. Qed.

Lemma two_groups (gs : list string) :
  List.length gs = 2%nat -> exists a b, gs = [a; b].
Proof. destruct gs as [|a [|b [|? ?]]]; try discriminate. now exists a, b. Qed.

Lemma header_submatch line :
  MatchString bgpNeighborRegex line = true ->
  exists a, FindStringSubmatch bgpNeighborRegex line = [line; a].
Proof.
  intros H. apply MatchString_submatch in H as (gs & -> & Hl).
  apply one_group in Hl as (a & ->). now exists a.
Qed.

Lemma state_submatch line :
  MatchString bgpStateRegex line = true ->
  exists w, FindStringSubmatch bgpStateRegex line = [line; w].
Proof.
  intros H. apply MatchString_submatch in H as (gs & -> & Hl).
  apply one_group in Hl as (a & ->). now exists a.
Qed.

Lemma prefixes_submatch line :
  MatchString bgpAcceptedPrefixesRegex line = true ->
  exists p, FindStringSubmatch bgpAcceptedPrefixesRegex line = [line; p].
Proof.
  intros H. apply MatchString_submatch in H as (gs & -> & Hl).
  apply one_group in Hl as (a & ->). now exists a.
Qed.

Lemma counters_submatch line :
  MatchString bgpConnectionsEstablishedDroppedRegex line = true ->
  exists e d,
    FindStringSubmatch bgpConnectionsEstablishedDroppedRegex line = [line; e; d].
Proof.
  intros H. apply MatchString_submatch in H as (gs & -> & Hl).
  apply two_groups in Hl as (a & b & ->). now exists a, b.
Qed.

(** The address a header captures is a non-empty run of digits and dots. *)
Lemma neighbor_capture_class line whole a :
  FindStringSubmatch bgpNeighborRegex line = [whole; a] ->
  a <> "" /\ all digit_or_dot a = true.
Proof.
  unfold FindStringSubmatch, bgpNeighborRegex. cbn [exec].
  destruct (strip_prefix "BGP neighbor is " line) as [r|]; [|discriminate].
  match goal with |- context [greedy ?c ?k ?ok ?acc ?s] =>
    destruct (greedy c k ok acc s) as [gs|] eqn:H end; [|discriminate].
  intros E; injection E as _ ->.
  apply (exec_group digit_or_dot [Lit ", "; Star dot]) in H
    as (m & rest & gs' & E & _ & Hm & Hall & _).
  injection E as ->. auto.
Qed.

(** A line matches at most one of the four patterns. *)
Lemma header_only line :
  MatchString bgpNeighborRegex line = true ->
  MatchString bgpStateRegex line = false /\
  MatchString bgpAcceptedPrefixesRegex line = false /\
  MatchString bgpConnectionsEstablishedDroppedRegex line = false.
Proof.
  intros H. apply shape_header in H. repeat split.
  - destruct (MatchString bgpStateRegex line) eqn:E; [|reflexivity].
    apply shape_state in E. congruence.
  - destruct (MatchString bgpAcceptedPrefixesRegex line) eqn:E; [|reflexivity].
    apply shape_prefixes in E as (d & _ & E). congruence.
  - destruct (MatchString bgpConnectionsEstablishedDroppedRegex line) eqn:E;
      [|reflexivity].
    apply shape_counters in E. congruence.
Qed.

Lemma state_only line :
  MatchString bgpStateRegex line = true ->
  MatchString bgpNeighborRegex line = false /\
  MatchString bgpAcceptedPrefixesRegex line = false /\
  MatchString bgpConnectionsEstablishedDroppedRegex line = false.
Proof.
  intros H. apply shape_state in H. repeat split.
  - destruct (MatchString bgpNeighborRegex line) eqn:E; [|reflexivity].
    apply shape_header in E. congruence.
  - destruct (MatchString bgpAcceptedPrefixesRegex line) eqn:E; [|reflexivity].
    apply shape_prefixes in E as (d & Hd & E).
    rewrite H in E. injection E as <-. discriminate.
  - destruct (MatchString bgpConnectionsEstablishedDroppedRegex line) eqn:E;
      [|reflexivity].
    apply shape_counters in E. congruence.
Qed.

Lemma prefixes_only line :
  MatchString bgpAcceptedPrefixesRegex line = true ->
  MatchString bgpNeighborRegex line = false /\
  MatchString bgpStateRegex line = false /\
  MatchString bgpConnectionsEstablishedDroppedRegex line = false.
Proof.
  intros H. apply shape_prefixes in H as (d & Hd & H). repeat split.
  - destruct (MatchString bgpNeighborRegex line) eqn:E; [|reflexivity].
    apply shape_header in E. congruence.
  - destruct (MatchString bgpStateRegex line) eqn:E; [|reflexivity].
    apply shape_state in E.
    rewrite H in E. injection E as ->. discriminate.
  - destruct (MatchString bgpConnectionsEstablishedDroppedRegex line) eqn:E;
      [|reflexivity].
    apply shape_counters in E.
    rewrite H in E. injection E as ->. discriminate.
Qed.

Lemma counters_only line :
  MatchString bgpConnectionsEstablishedDroppedRegex line = true ->
  MatchString bgpNeighborRegex line = false /\
  MatchString bgpStateRegex line = false /\
  MatchString bgpAcceptedPrefixesRegex line = false.
Proof.
  intros H. apply shape_counters in H. repeat split.
  - destruct (MatchString bgpNeighborRegex line) eqn:E; [|reflexivity].
    apply shape_header in E. congruence.
  - destruct (MatchString bgpStateRegex line) eqn:E; [|reflexivity].
    apply shape_state in E. congruence.
  - destruct (MatchString bgpAcceptedPrefixesRegex line) eqn:E; [|reflexivity].
    apply shape_prefixes in E as (d & Hd & E).
    rewrite H in E. injection E as <-. discriminate.
Qed.

(** ** One turn of the loop *)

Lemma consistent_start : consistent start.
Proof. intros H. now contradiction H. Qed.

Lemma set_IP_same b : set_IP b (IP b) = b.
Proof. now destruct b. Qed.

Ltac line_is H :=
  let M := fresh "M" in
  pose proof (submatch_MatchString _ _ _ _ H) as M;
  first [ destruct (header_only _ M) as (? & ? & ?)
        | destruct (state_only _ M) as (? & ? & ?)
        | destruct (prefixes_only _ M) as (? & ? & ?)
        | destruct (counters_only _ M) as (? & ? & ?) ].

Ltac run_body :=
  unfold loop_body_with;
  repeat match goal with
         | H : MatchString _ _ = _ |- _ => rewrite H
         end;
  repeat match goal with
         | H : FindStringSubmatch _ _ = _ |- _ => rewrite H
         end;
  cbn [index nth_error neigh bgpNeigh].

Section Steps.

Context {Store : Type} (commit : string -> BgpNeighbor -> Store -> Store).

(** A header opens a fresh record under the captured text, whatever the
    locals were, and the address is parsed into it in the same turn. *)
Lemma step_header line a l st :
  FindStringSubmatch bgpNeighborRegex line = [line; a] ->
  loop_body_with commit line (l, st) =
    Some (mkLocals (Some (set_IP new_BgpNeighbor (net.ParseIP a))) a, st).
Proof.
  intros H. line_is H.
  destruct (neighbor_capture_class _ _ _ H) as [Ha _].
  run_body. apply String.eqb_neq in Ha. now rewrite Ha.
Qed.

(** Before the first header nothing happens. *)
Lemma step_idle line l st :
  MatchString bgpNeighborRegex line = false -> neigh l = "" ->
  loop_body_with commit line (l, st) = Some (l, st).
Proof. intros H E. run_body. now rewrite E. Qed.

Lemma step_state line w l b st :
  bgpNeigh l = Some b -> neigh l <> "" ->
  FindStringSubmatch bgpStateRegex line = [line; w] ->
  loop_body_with commit line (l, st) =
    Some (mkLocals
            (Some (set_State (set_IP b (net.ParseIP (neigh l)))
                     (state_switch w)))
            (neigh l), st).
Proof.
  intros Hb Hn H. line_is H. run_body.
  apply String.eqb_neq in Hn. now rewrite Hn, Hb.
Qed.

Lemma step_prefixes line p l b st :
  bgpNeigh l = Some b -> neigh l <> "" ->
  FindStringSubmatch bgpAcceptedPrefixesRegex line = [line; p] ->
  loop_body_with commit line (l, st) =
    Some (mkLocals
            (Some (set_AcceptedPrefixes (set_IP b (net.ParseIP (neigh l)))
                     (fst (strconv.ParseFloat p))))
            (neigh l), st).
Proof.
  intros Hb Hn H. line_is H. run_body.
  apply String.eqb_neq in Hn. now rewrite Hn, Hb.
Qed.

Lemma step_counters line e d l b st :
  bgpNeigh l = Some b -> neigh l <> "" ->
  FindStringSubmatch bgpConnectionsEstablishedDroppedRegex line = [line; e; d] ->
  loop_body_with commit line (l, st) =
    Some (mkLocals (Some (completed b (neigh l) e d)) (neigh l),
          commit (neigh l) (completed b (neigh l) e d) st).
Proof.
  intros Hb Hn H. line_is H. run_body.
  apply String.eqb_neq in Hn. now rewrite Hn, Hb.
Qed.

(** A line that matches none of the patterns: the address is parsed into
    the record again, nothing else. *)
Lemma step_other line l b st :
  bgpNeigh l = Some b -> neigh l <> "" ->
  MatchString bgpNeighborRegex line = false ->
  MatchString bgpStateRegex line = false ->
  MatchString bgpAcceptedPrefixesRegex line = false ->
  MatchString bgpConnectionsEstablishedDroppedRegex line = false ->
  loop_body_with commit line (l, st) =
    Some (mkLocals (Some (set_IP b (net.ParseIP (neigh l)))) (neigh l), st).
Proof.
  intros Hb Hn H1 H2 H3 H4. run_body.
  apply String.eqb_neq in Hn. now rewrite Hn, Hb.
Qed.

End Steps.

(** Every turn from consistent locals ends without a panic, in consistent
    locals, and is of one shape whatever the commit does: [c] is the record
    committed in this turn, if any. *)
Lemma step_cases line l :
  consistent l ->
  exists l' c,
    consistent l' /\
    (forall Store (commit : string -> BgpNeighbor -> Store -> Store) st,
        loop_body_with commit line (l, st) =
          Some (l', match c with
                    | Some b => commit (neigh l') b st
                    | None => st
                    end)) /\
    (MatchString bgpNeighborRegex line = false -> neigh l' = neigh l) /\
    match c with
    | Some b =>
        MatchString bgpConnectionsEstablishedDroppedRegex line = true /\
        neigh l' <> "" /\ bgpNeigh l' = Some b
    | None =>
        MatchString bgpConnectionsEstablishedDroppedRegex line = false \/
        neigh l' = ""
    end.
Proof.
  intros Hl.
  destruct (MatchString bgpNeighborRegex line) eqn:Hh.
  { destruct (header_submatch _ Hh) as (a & Ha).
    destruct (header_only _ Hh) as (_ & _ & Hc).
    exists (mkLocals (Some (set_IP new_BgpNeighbor (net.ParseIP a))) a), None.
    repeat split; auto.
    - intros _. eexists; split; reflexivity.
    - intros; now apply step_header.
    - discriminate. }
  destruct (string_dec (neigh l) "") as [E|E].
  { exists l, None. repeat split; auto.
    intros; now apply step_idle. }
  destruct (Hl E) as (b & Hb & Hip).
  destruct (MatchString bgpStateRegex line) eqn:Hs.
  { destruct (state_submatch _ Hs) as (w & Hw).
    destruct (state_only _ Hs) as (_ & _ & Hc).
    exists (mkLocals
              (Some (set_State (set_IP b (net.ParseIP (neigh l)))
                       (state_switch w))) (neigh l)), None.
    repeat split; auto.
    - intros _. eexists; split; reflexivity.
    - intros; eapply step_state; eassumption. }
  destruct (MatchString bgpAcceptedPrefixesRegex line) eqn:Hp.
  { destruct (prefixes_submatch _ Hp) as (p & Hw).
    destruct (prefixes_only _ Hp) as (_ & _ & Hc).
    exists (mkLocals
              (Some (set_AcceptedPrefixes (set_IP b (net.ParseIP (neigh l)))
                       (fst (strconv.ParseFloat p)))) (neigh l)), None.
    repeat split; auto.
    - intros _. eexists; split; reflexivity.
    - intros; eapply step_prefixes; eassumption. }
  destruct (MatchString bgpConnectionsEstablishedDroppedRegex line) eqn:Hc.
  { destruct (counters_submatch _ Hc) as (e & d & Hw).
    exists (mkLocals (Some (completed b (neigh l) e d)) (neigh l)),
           (Some (completed b (neigh l) e d)).
    repeat split; auto.
    - intros _. eexists; split; reflexivity.
    - intros; cbn [neigh]; now apply step_counters. }
  exists (mkLocals (Some (set_IP b (net.ParseIP (neigh l)))) (neigh l)), None.
  repeat split; auto.
  - intros _. eexists; split; reflexivity.
  - intros; now apply step_other.
Qed.

(** A line that matches no pattern changes nothing. *)
Lemma step_unrecognized {Store} (commit : string -> BgpNeighbor -> Store -> Store)
    line l st :
  consistent l ->
  MatchString bgpNeighborRegex line = false ->
  MatchString bgpStateRegex line = false ->
  MatchString bgpAcceptedPrefixesRegex line = false ->
  MatchString bgpConnectionsEstablishedDroppedRegex line = false ->
  loop_body_with commit line (l, st) = Some (l, st).
Proof.
  intros Hl H1 H2 H3 H4.
  destruct (string_dec (neigh l) "") as [E|E].
  - now apply step_idle.
  - destruct (Hl E) as (b & Hb & Hip).
    rewrite (step_other commit line l b st) by assumption.
    rewrite <- Hip, set_IP_same. destruct l; simpl in *. now subst.
Qed.

(** ** The whole loop *)

Lemma range_with_app {Store} (commit : string -> BgpNeighbor -> Store -> Store)
    l1 l2 st :
  range_with commit (l1 ++ l2) st =
    (st1 <- range_with commit l1 st ;; range_with commit l2 st1).
Proof.
  revert st; induction l1 as [|x l1 IH]; intros st; simpl.
  - reflexivity.
  - destruct (loop_body_with commit x st); [apply IH | reflexivity].
Qed.

(** The loop never panics from consistent locals, and what it does to the
    store is the replay of the commits it makes. *)
Lemma range_with_log lines : forall l,
  consistent l ->
  exists l' log,
    consistent l' /\ log_ok log /\
    forall Store (commit : string -> BgpNeighbor -> Store -> Store) st,
      range_with commit lines (l, st) = Some (l', replay commit log st).
Proof.
  induction lines as [|line lines IH]; intros l Hl.
  - exists l, []. repeat split; [assumption | constructor].
  - destruct (step_cases line l Hl) as (l1 & c & Hl1 & Hstep & _ & Hc).
    destruct (IH l1 Hl1) as (l' & log & Hl' & Hlog & Hrest).
    exists l', (match c with Some b => (neigh l1, b) :: log | None => log end).
    repeat split; [assumption | |].
    + destruct c as [b|]; [|assumption].
      destruct Hc as (_ & Hn & Hb). constructor; [|assumption].
      destruct (Hl1 Hn) as (b0 & Hb0 & Hip). simpl. congruence.
    + intros Store commit st. cbn [range_with].
      rewrite Hstep, Hrest. now destruct c.
Qed.

Lemma replay_record log : forall log0, replay record log log0 = log0 ++ log.
Proof.
  induction log as [|kb log IH]; intros log0; simpl.
  - now rewrite app_nil_r.
  - rewrite IH. unfold record. destruct kb. now rewrite <- app_assoc.
Qed.

Lemma commits_from_total lines l :
  consistent l -> exists log, commits_from lines l = Some log.
Proof.
  intros Hl. destruct (range_with_log lines l Hl) as (l' & log & _ & _ & H).
  exists log. unfold commits_from. rewrite H. simpl.
  now rewrite replay_record.
Qed.

(** [parseBGP] on a store is the replay of its commits on that store. *)
Lemma parseBGP_replay s :
  exists log,
    log_ok log /\ commits s = Some log /\
    forall store, parseBGP s store = Some (replay upsert log store).
Proof.
  destruct (range_with_log (lines_of s) start consistent_start)
    as (l' & log & _ & Hlog & H).
  exists log. split; [assumption|]. split.
  - unfold commits, commits_from. rewrite H. simpl. now rewrite replay_record.
  - intros store. unfold parseBGP, range. now rewrite H.
Qed.

(** [parseBGP] returns: no nil dereference and no index out of range is
    reachable. *)
Lemma parseBGP_total s store : exists store', parseBGP s store = Some store'.
Proof.
  destruct (parseBGP_replay s) as (log & _ & _ & H). eexists. apply H.
Qed.

(** ** [net]: parsing an address and printing it back *)

Module net_facts.
Import net.

Local Open Scope Z_scope.

Lemma digit_value_range c :
  digit c = true -> 0 <= strconv.digit_value c <= 9.
Proof.
  unfold digit, in_range, strconv.digit_value. intros H.
  apply andb_prop in H as [H1 H2]. apply N.leb_le in H1, H2. lia.
Qed.

Lemma digit_char_value c :
  digit c = true -> digit_char (strconv.digit_value c) = c.
Proof.
  unfold digit, in_range, strconv.digit_value, digit_char. intros H.
  apply andb_prop in H as [H1 H2]. apply N.leb_le in H1, H2.
  replace (Z.to_N (48 + (Z.of_N (N_of_ascii c) - 48))) with (N_of_ascii c)
    by lia.
  apply ascii_N_embedding.
Qed.

Lemma digit_value_zero c :
  digit c = true -> strconv.digit_value c = 0 -> c = "0"%char.
Proof.
  intros H E. rewrite <- (digit_char_value c H), E. reflexivity.
Qed.

(** [dtoi] only grows its accumulator and its count. *)
Lemma dtoi_loop_grows s : forall n i m c,
  0 <= n -> dtoi_loop s n i = (m, c, true) -> n <= m /\ (i <= c)%nat.
Proof.
  induction s as [|ch s IH]; intros n i m c Hn H; simpl in H.
  - destruct i; [discriminate|]. injection H as <- <-. lia.
  - destruct (digit ch) eqn:Hd.
    + pose proof (digit_value_range ch Hd).
      destruct (big <=? n * 10 + strconv.digit_value ch); [discriminate|].
      apply IH in H; lia.
    + destruct i; [discriminate|]. injection H as <- <-. lia.
Qed.

Lemma dtoi_loop_stops s n i :
  stops s -> dtoi_loop s n (S i) = (n, S i, true).
Proof. destruct s as [|ch s]; simpl; [reflexivity | now intros ->]. Qed.

Lemma stops_dec s :
  stops s \/ exists ch s', s = String ch s' /\ digit ch = true.
Proof.
  destruct s as [|ch s]; simpl; [now left|].
  destruct (digit ch) eqn:E; [right; now exists ch, s | now left].
Qed.

Lemma appendDecimal_1 v :
  0 <= v <= 9 -> appendDecimal v = String (digit_char v) "".
Proof.
  intros H. unfold appendDecimal.
  destruct (Z.leb_spec 100 v); [lia|]. destruct (Z.leb_spec 10 v); [lia|].
  simpl. now rewrite Z.mod_small by lia.
Qed.

Lemma appendDecimal_2 v1 v2 :
  1 <= v1 <= 9 -> 0 <= v2 <= 9 ->
  appendDecimal (v1 * 10 + v2) =
    String (digit_char v1) (String (digit_char v2) "").
Proof.
  intros H1 H2. unfold appendDecimal.
  destruct (Z.leb_spec 100 (v1 * 10 + v2)); [lia|].
  destruct (Z.leb_spec 10 (v1 * 10 + v2)); [|lia].
  replace ((v1 * 10 + v2) / 10 mod 10) with v1
    by (Z.div_mod_to_equations; lia).
  replace ((v1 * 10 + v2) mod 10) with v2 by (Z.div_mod_to_equations; lia).
  reflexivity.
Qed.

Lemma appendDecimal_3 v1 v2 v3 :
  1 <= v1 <= 9 -> 0 <= v2 <= 9 -> 0 <= v3 <= 9 ->
  appendDecimal ((v1 * 10 + v2) * 10 + v3) =
    String (digit_char v1) (String (digit_char v2) (String (digit_char v3) "")).
Proof.
  intros H1 H2 H3. unfold appendDecimal.
  destruct (Z.leb_spec 100 ((v1 * 10 + v2) * 10 + v3)); [|lia].
  destruct (Z.leb_spec 10 ((v1 * 10 + v2) * 10 + v3)); [|lia].
  replace (((v1 * 10 + v2) * 10 + v3) / 100) with v1
    by (Z.div_mod_to_equations; lia).
  replace (((v1 * 10 + v2) * 10 + v3) / 10 mod 10) with v2
    by (Z.div_mod_to_equations; lia).
  replace (((v1 * 10 + v2) * 10 + v3) mod 10) with v3
    by (Z.div_mod_to_equations; lia).
  reflexivity.
Qed.

Ltac no_overflow H :=
  match type of H with
  | (if ?b then _ else _) = _ => destruct b eqn:?; [discriminate|]
  end.

(** One octet: what [dtoi] read, when [parseIPv4] accepts it, is the
    decimal text of its value. *)
Lemma dtoi_octet s n c :
  dtoi s = (n, c, true) ->
  (255 <? n) = false ->
  ((1 <? c)%nat &&
   match s with String d _ => Ascii.eqb d "0" | _ => false end) = false ->
  0 <= n <= 255 /\ s = (appendDecimal n ++ skip c s)%string.
Proof.
  unfold dtoi. intros H Hn Hz. apply Z.ltb_ge in Hn.
  destruct s as [|d1 r1]; [discriminate|]. simpl in H.
  destruct (digit d1) eqn:D1; [|discriminate].
  pose proof (digit_value_range d1 D1) as R1.
  no_overflow H.
  destruct (stops_dec r1) as [S1|(d2 & r2 & -> & D2)].
  { rewrite dtoi_loop_stops in H by assumption. injection H as <- <-.
    split; [lia|]. rewrite appendDecimal_1 by lia.
    now rewrite digit_char_value. }
  simpl in H. rewrite D2 in H.
  pose proof (digit_value_range d2 D2) as R2.
  no_overflow H.
  assert (N1 : 1 <= strconv.digit_value d1).
  { destruct (Z.eq_dec (strconv.digit_value d1) 0) as [E|E]; [|lia].
    apply digit_value_zero in E; [|assumption]. subst d1.
    apply dtoi_loop_grows in H as [_ H]; [|lia].
    destruct c as [|[|c]]; try lia. discriminate. }
  destruct (stops_dec r2) as [S2|(d3 & r3 & -> & D3)].
  { rewrite dtoi_loop_stops in H by assumption. injection H as <- <-.
    split; [lia|]. rewrite appendDecimal_2 by lia.
    now rewrite !digit_char_value. }
  simpl in H. rewrite D3 in H.
  pose proof (digit_value_range d3 D3) as R3.
  no_overflow H.
  destruct (stops_dec r3) as [S3|(d4 & r4 & -> & D4)].
  { rewrite dtoi_loop_stops in H by assumption. injection H as <- <-.
    split; [lia|]. rewrite appendDecimal_3 by lia.
    now rewrite !digit_char_value. }
  simpl in H. rewrite D4 in H.
  pose proof (digit_value_range d4 D4) as R4.
  no_overflow H.
  apply dtoi_loop_grows in H as [H _]; lia.
Qed.

(** One turn of the loop of [parseIPv4]. *)
Lemma parseIPv4_loop_turn k first s p ip :
  parseIPv4_loop (S k) first s p = Some ip ->
  exists n rest,
    0 <= n <= 255 /\
    s = ((if first then "" else ".") ++ appendDecimal n ++ rest)%string /\
    parseIPv4_loop k false rest (p ++ [n]) = Some ip.
Proof.
  cbn [parseIPv4_loop]. destruct s as [|c0 s0]; [discriminate|].
  set (s1 := if first then Some (String c0 s0)
             else if Ascii.eqb c0 "." then Some s0 else None).
  destruct s1 as [t|] eqn:E1; [|discriminate].
  destruct (dtoi t) as [[n c] ok] eqn:Ed.
  destruct ok; simpl; [|discriminate].
  destruct (255 <? n) eqn:Hn; [discriminate|].
  match goal with
  | |- (if ?b then _ else _) = _ -> _ => destruct b eqn:Hz; [discriminate|]
  end.
  intros H. destruct (dtoi_octet t n c Ed Hn Hz) as [R Ht].
  exists n, (skip c t). repeat split; try lia; [|assumption].
  subst s1. destruct first.
  - injection E1 as <-. exact Ht.
  - destruct (Ascii.eqb_spec c0 ".") as [->|]; [|discriminate].
    injection E1 as <-. simpl. now rewrite <- Ht.
Qed.

Lemma parseIPv4_String s ip : parseIPv4 s = Some ip -> String_ (Some ip) = s.
Proof.
  unfold parseIPv4. intros H.
  apply parseIPv4_loop_turn in H as (a & r1 & _ & -> & H).
  apply parseIPv4_loop_turn in H as (b & r2 & _ & -> & H).
  apply parseIPv4_loop_turn in H as (c & r3 & _ & -> & H).
  apply parseIPv4_loop_turn in H as (d & r4 & _ & -> & H).
  simpl in H. destruct r4; [|discriminate]. injection H as <-.
  unfold String_. cbn [append]. now rewrite append_nil_r.
Qed.

Lemma first_separator_class s :
  all digit_or_dot s = true -> first_separator s <> ToIPv6.
Proof.
  induction s as [|c s IH]; simpl; [discriminate|].
  intros H. apply andb_prop in H as [Hc Hs].
  destruct (Ascii.eqb c "."); [discriminate|].
  destruct (Ascii.eqb_spec c ":") as [->|]; [discriminate | auto].
Qed.

End net_facts.

(** Printing a parsed address gives back the text it was parsed from. *)
Lemma ParseIP_String s ip :
  net.ParseIP s = Some ip -> net.String_ (Some ip) = s.
Proof.
  unfold net.ParseIP. destruct (net.first_separator s); try discriminate.
  apply net_facts.parseIPv4_String.
Qed.

(** The address of a header is never handed to the IPv6 parser. *)
Lemma neighbor_capture_parse line whole a :
  FindStringSubmatch bgpNeighborRegex line = [whole; a] ->
  net.first_separator a <> net.ToIPv6.
Proof.
  intros H. apply neighbor_capture_class in H as [_ H].
  now apply net_facts.first_separator_class.
Qed.

(** ** The commit into [bgpNeighbors] *)

Lemma scan_spec k b store : forall found,
  scan k b store found =
    (map (overwrite k b) store,
     found || existsb (fun n => String.eqb (key n) k) store).
Proof.
  induction store as [|n store IH]; intros found; simpl.
  - now rewrite orb_false_r.
  - unfold overwrite at 1. destruct (String.eqb (key n) k); rewrite IH.
    + now rewrite orb_true_r.
    + reflexivity.
Qed.

Lemma present_existsb k store :
  existsb (fun n => String.eqb (key n) k) store = true <-> present k store.
Proof.
  rewrite existsb_exists. unfold present.
  split; intros (n & Hn & E); exists n; split; auto;
    now apply String.eqb_eq.
Qed.

Lemma overwrite_absent k b store :
  ~ present k store -> map (overwrite k b) store = store.
Proof.
  induction store as [|n store IH]; intros H; simpl; [reflexivity|].
  unfold overwrite at 1. destruct (String.eqb_spec (key n) k) as [E|E].
  - contradiction H. exists n. split; [now left | assumption].
  - f_equal. apply IH. intros (m & Hm & Em). apply H.
    exists m. split; [now right | assumption].
Qed.

Lemma upsert_absent k b store :
  ~ present k store -> upsert k b store = store ++ [b].
Proof.
  intros H. unfold upsert. rewrite scan_spec. simpl.
  destruct (existsb (fun n => String.eqb (key n) k) store) eqn:E.
  - apply present_existsb in E. contradiction.
  - now rewrite overwrite_absent.
Qed.

Lemma upsert_present k b store :
  present k store -> upsert k b store = map (overwrite k b) store.
Proof.
  intros H. unfold upsert. rewrite scan_spec. simpl.
  apply present_existsb in H. now rewrite H.
Qed.

Lemma present_dec k store : {present k store} + {~ present k store}.
Proof.
  destruct (existsb (fun n => String.eqb (key n) k) store) eqn:E.
  - left. now apply present_existsb.
  - right. intros H. apply present_existsb in H. congruence.
Qed.

Lemma upsert_In k b store : In b (upsert k b store).
Proof.
  destruct (present_dec k store) as [H|H].
  - rewrite upsert_present by assumption.
    destruct H as (n & Hn & E). apply in_map_iff. exists n.
    split; [|assumption]. unfold overwrite.
    apply String.eqb_eq in E. now rewrite E.
  - rewrite upsert_absent by assumption. apply in_or_app. right. now left.
Qed.

Lemma upsert_inv k b store n :
  In n (upsert k b store) -> n = b \/ (In n store /\ key n <> k).
Proof.
  destruct (present_dec k store) as [H|H].
  - rewrite upsert_present by assumption. intros Hn.
    apply in_map_iff in Hn as (m & E & Hm). unfold overwrite in E.
    destruct (String.eqb_spec (key m) k); subst; auto.
  - rewrite upsert_absent by assumption. intros Hn.
    apply in_app_or in Hn as [Hn|[Hn|[]]]; [right | now left].
    split; [assumption|]. intros E. apply H. now exists n.
Qed.

Lemma upsert_other k b store n :
  In n store -> key n <> k -> In n (upsert k b store).
Proof.
  intros Hn E. destruct (present_dec k store) as [H|H].
  - rewrite upsert_present by assumption. apply in_map_iff. exists n.
    split; [|assumption]. unfold overwrite.
    apply String.eqb_neq in E. now rewrite E.
  - rewrite upsert_absent by assumption. apply in_or_app. now left.
Qed.

Lemma upsert_length k b store :
  (List.length store <= List.length (upsert k b store))%nat.
Proof.
  destruct (present_dec k store) as [H|H].
  - rewrite upsert_present by assumption. now rewrite length_map.
  - rewrite upsert_absent by assumption. rewrite length_app. simpl. lia.
Qed.

(** ** What the store keeps *)

Lemma store_ok_nil : store_ok [].
Proof. split; constructor. Qed.

Lemma key_commit k b ip :
  IP b = net.ParseIP k -> net.ParseIP k = Some ip -> key b = k.
Proof.
  intros Hb Hk. unfold key. rewrite Hb, Hk. now apply ParseIP_String.
Qed.

Lemma faithful_commit k b : IP b = net.ParseIP k -> faithful b.
Proof.
  intros Hb. unfold faithful. destruct (net.ParseIP k) as [ip|] eqn:Hk.
  - rewrite (key_commit k b ip) by congruence. congruence.
  - unfold key. rewrite Hb. reflexivity.
Qed.

(** An element that the scan overwrites carried the same address. *)
Lemma overwritten_IP k b n :
  faithful n -> IP b = net.ParseIP k -> key n = k -> IP b = IP n.
Proof. unfold faithful. intros Hn Hb <-. congruence. Qed.

Lemma overwrite_keys k b store :
  Forall faithful store -> IP b = net.ParseIP k ->
  map key (filter parsed (map (overwrite k b) store)) =
  map key (filter parsed store).
Proof.
  intros Hs Hb. induction Hs as [|n store Hn _ IH]; simpl; [reflexivity|].
  assert (E : IP (overwrite k b n) = IP n).
  { unfold overwrite. destruct (String.eqb_spec (key n) k); [|reflexivity].
    now apply (overwritten_IP k). }
  assert (Ep : parsed (overwrite k b n) = parsed n)
    by (unfold parsed; now rewrite E).
  assert (Ek : key (overwrite k b n) = key n) by (unfold key; now rewrite E).
  rewrite Ep. destruct (parsed n); simpl; now rewrite ?Ek, IH.
Qed.

Lemma upsert_ok k b store :
  store_ok store -> IP b = net.ParseIP k -> store_ok (upsert k b store).
Proof.
  intros [Hf Hd] Hb. destruct (present_dec k store) as [H|H].
  - rewrite upsert_present by assumption. split.
    + apply Forall_map. eapply Forall_impl; [|exact Hf].
      intros n Hn. unfold overwrite. destruct (String.eqb (key n) k); auto.
      now apply (faithful_commit k).
    + now rewrite overwrite_keys.
  - rewrite upsert_absent by assumption. split.
    + apply Forall_app. split; [assumption|].
      constructor; [now apply (faithful_commit k) | constructor].
    + rewrite filter_app, map_app. simpl.
      destruct (parsed b) eqn:Hp; simpl; [|now rewrite app_nil_r].
      apply NoDup_app; [assumption | repeat constructor; intros [] |].
      intros x Hx [<-|[]]. apply H.
      apply in_map_iff in Hx as (n & E & Hn). apply filter_In in Hn as [Hn _].
      exists n. split; [assumption|]. rewrite E.
      unfold parsed in Hp. destruct (IP b) as [ip|] eqn:Hip; [|discriminate].
      apply (key_commit k b ip); congruence.
Qed.

(** A key that is present stays present. *)
Lemma upsert_keeps k b store k0 :
  Forall faithful store -> IP b = net.ParseIP k ->
  present k0 store -> present k0 (upsert k b store).
Proof.
  intros Hf Hb (n & Hn & E).
  destruct (String.eqb_spec (key n) k) as [Ek|Ek].
  - exists b. split; [apply upsert_In|].
    rewrite Forall_forall in Hf.
    rewrite <- E. unfold key. f_equal.
    now apply (overwritten_IP k); auto.
  - exists n. split; [now apply upsert_other | assumption].
Qed.

Lemma replay_ok log : forall store,
  store_ok store -> log_ok log ->
  store_ok (replay upsert log store) /\
  (List.length store <= List.length (replay upsert log store))%nat /\
  (forall k, present k store -> present k (replay upsert log store)).
Proof.
  induction log as [|[k b] log IH]; intros store Hs Hl; simpl.
  - auto.
  - inversion Hl as [|? ? Hb Hl']; subst. simpl in Hb.
    destruct (IH (upsert k b store)) as (H1 & H2 & H3);
      [now apply upsert_ok | assumption |].
    split; [assumption | split].
    + pose proof (upsert_length k b store). lia.
    + intros k0 Hk. apply H3. apply upsert_keeps; auto. apply Hs.
Qed.

(** ** [strconv]: the value of a run of digits *)

Module strconv_facts.
Import strconv.

Local Open Scope Z_scope.

(** Below 2^53 the number is stored as it is. *)
Lemma nearest64_exact v : v < two53 -> nearest64 v = v.
Proof.
  intros H. unfold nearest64. apply Z.ltb_lt in H. now rewrite H.
Qed.

Lemma inf_pos : 0 < inf.
Proof. unfold inf. now apply Z.pow_pos_nonneg. Qed.

Lemma nearest64_nonneg v : 0 <= v -> 0 <= nearest64 v.
Proof.
  intros H. unfold nearest64. destruct (v <? two53); [assumption|].
  cbv zeta. pose proof inf_pos.
  match goal with |- context [if ?b then inf else ?x] =>
    destruct b; [lia|] end.
  apply Z.shiftl_nonneg.
  assert (0 <= Z.shiftr v (Z.log2 v - 52)) by now apply Z.shiftr_nonneg.
  match goal with |- context [if ?b then _ else _] => destruct b end; lia.
Qed.

(** From 2^53 on the number is between two neighbouring doubles
    [m * 2^k] with [2^52 <= m <= 2^53], and the one stored is within half
    of their distance, [2^k], of it; when it is just in the middle, the
    double with the even [m] is taken.  When that double is beyond the
    largest one, the infinity is stored. *)
Lemma nearest64_near v :
  two53 <= v ->
  let k := Z.log2 v - 52 in
  exists m,
    2 ^ 52 <= m <= 2 ^ 53 /\
    2 * Z.abs (m * 2 ^ k - v) <= 2 ^ k /\
    (2 * Z.abs (m * 2 ^ k - v) = 2 ^ k -> Z.even m = true) /\
    nearest64 v = (if inf <=? m * 2 ^ k then inf else m * 2 ^ k).
Proof.
  intros Hv k.
  assert (Hpos : 0 < v) by (unfold two53 in Hv; lia).
  assert (Hlog : 53 <= Z.log2 v).
  { change 53 with (Z.log2 two53). now apply Z.log2_le_mono. }
  assert (Hk : 1 <= k) by (unfold k; lia).
  destruct (Z.log2_spec v Hpos) as [Hlo Hhi].
  replace (Z.log2 v) with (52 + k) in Hlo by (unfold k; lia).
  replace (Z.succ (Z.log2 v)) with (53 + k) in Hhi by (unfold k; lia).
  rewrite Z.pow_add_r in Hlo, Hhi by lia.
  assert (HP : 0 < 2 ^ k) by (apply Z.pow_pos_nonneg; lia).
  assert (HH : 2 ^ k = 2 * 2 ^ (k - 1)).
  { replace k with (Z.succ (k - 1)) at 1 by lia.
    apply Z.pow_succ_r. lia. }
  set (q := v / 2 ^ k).
  assert (Hq : 2 ^ 52 <= q < 2 ^ 53).
  { unfold q. split.
    - apply Z.div_le_lower_bound; lia.
    - apply Z.div_lt_upper_bound; lia. }
  pose proof (Z.div_mod v (2 ^ k) ltac:(lia)) as Hdm. fold q in Hdm.
  pose proof (Z.mod_pos_bound v (2 ^ k) HP) as Hr.
  set (r := v mod 2 ^ k) in *.
  unfold nearest64. apply Z.ltb_ge in Hv. rewrite Hv. cbv zeta. fold k.
  rewrite Z.shiftr_div_pow2 by lia. fold q.
  rewrite !Z.shiftl_mul_pow2 by lia.
  replace (v - q * 2 ^ k) with r by lia.
  rewrite Z.mul_1_l.
  set (P := 2 ^ k) in *. set (H := 2 ^ (k - 1)) in *.
  assert (Hqm : q * P = P * q) by apply Z.mul_comm.
  destruct (H <? r) eqn:E1; simpl orb.
  { apply Z.ltb_lt in E1. exists (q + 1).
    split; [lia|]. split; [lia|]. split; [lia | reflexivity]. }
  apply Z.ltb_ge in E1.
  destruct (r =? H) eqn:E2; simpl andb.
  - apply Z.eqb_eq in E2. destruct (Z.odd q) eqn:E3.
    + exists (q + 1). split; [lia|]. split; [lia|].
      split; [|reflexivity]. intros _.
      rewrite Z.even_add, <- Z.negb_odd, E3. reflexivity.
    + exists q. split; [lia|]. split; [lia|].
      split; [|reflexivity]. intros _. now rewrite <- Z.negb_odd, E3.
  - apply Z.eqb_neq in E2. exists q.
    split; [lia|]. split; [lia|]. split; [lia | reflexivity].
Qed.

(** What [ParseFloat] gives for a run of digits: the double nearest to the
    number they denote. *)
Lemma ParseFloat_decimal s v :
  decimal s 0 = Some v -> fst (ParseFloat s) = nearest64 v.
Proof.
  intros H. unfold ParseFloat. destruct s as [|c s].
  - simpl in H. injection H as <-. reflexivity.
  - now rewrite H.
Qed.

End strconv_facts.

(** * The claims *)

(** ** C1: a failed acquisition *)

(** The gauges are set from the store, which [export] leaves alone. *)
Lemma export_bgpNeighbors g : bgpNeighbors (export g) = bgpNeighbors g.
Proof.
  unfold export. generalize (bgpNeighbors g) at 1.
  intros l. revert g. induction l as [|n l IH]; intros g; simpl.
  - reflexivity.
  - now rewrite IH.
Qed.

(** A turn of the loop whose acquisition succeeds returns, and does to the
    store what [parseBGP] does on the text acquired. *)
Lemma cycle_Ran sout serr g :
  exists g',
    cycle (Ran sout serr) g = Ret g' /\
    parseBGP sout (bgpNeighbors g) = Some (bgpNeighbors g').
Proof.
  unfold cycle. simpl.
  destruct (parseBGP_total sout (bgpNeighbors g)) as (store' & ->).
  eexists. split; [reflexivity|]. now rewrite export_bgpNeighbors.
Qed.

(** C1, counterexample.  The claim says that a failed acquisition is logged
    and the cycle skipped, the process going on.  Here the store holds the
    record of 10.0.0.1 and the command fails with "exit status 1": the
    cycle does not return, the process exits with status 1 through
    [log.Fatalf], and the successful acquisition that would follow is never
    made. *)
Lemma acquisition_failure_counterexample :
  let g := mkGlobals [example_record] [] [] [] [] in
  let msg := ("Failed to execute vtysh command: exit status 1" ++
              String newline "")%string in
  cycle (Failed "exit status 1") g = Fatal msg /\
  (forall g', cycle (Failed "exit status 1") g <> Ret g') /\
  recordMetrics [Failed "exit status 1"; Ran example_block ""] g =
    (g, Exited 1 msg).
Proof.
  cbv zeta. split; [reflexivity|]. split; [discriminate | reflexivity].
Qed.

(** C1, amended.  When the acquisition fails, the failure is logged and the
    process exits with status 1, whatever acquisitions succeeded before and
    whatever would follow: no later cycle runs.  The store is at exit what
    the successful polls before the failure left; the failed cycle does not
    change it. *)
Theorem acquisition_failure_is_fatal oks err rs g :
  exists g',
    recordMetrics
      (map (fun o => Ran (fst o) (snd o)) oks ++ Failed err :: rs) g =
      (g', Exited 1 ("Failed to execute vtysh command: " ++ err ++
                     String newline "")) /\
    polls (map fst oks) (bgpNeighbors g) = Some (bgpNeighbors g').
Proof.
  revert g. induction oks as [|[sout serr] oks IH]; intros g.
  - exists g. split; reflexivity.
  - destruct (cycle_Ran sout serr g) as (g1 & Hc & Hp).
    destruct (IH g1) as (g' & Hr & Hs).
    exists g'. cbn [map app recordMetrics fst snd polls].
    rewrite Hc, Hp. now split.
Qed.

(** ** C2: a block of complete entries *)

Lemma entry_run ls a r :
  complete_entry ls a r ->
  forall Store (commit : string -> BgpNeighbor -> Store -> Store) l st,
    range_with commit ls (l, st) =
      Some (mkLocals (Some r) a, commit a r st).
Proof.
  intros [h s p c a' w n e d ip vn ve vd Hh Hs Hp Hc Hip Hn He Hd]
         Store commit l st.
  destruct (neighbor_capture_class _ _ _ Hh) as [Ha _].
  cbn [range_with].
  rewrite (step_header commit h a' l st Hh).
  erewrite step_state; [|reflexivity|assumption|eassumption].
  erewrite step_prefixes; [|reflexivity|assumption|eassumption].
  erewrite step_counters; [|reflexivity|assumption|eassumption].
  cbn [neigh]. unfold completed. rewrite Hip.
  rewrite (strconv_facts.ParseFloat_decimal n vn Hn),
          (strconv_facts.ParseFloat_decimal e ve He),
          (strconv_facts.ParseFloat_decimal d vd Hd).
  reflexivity.
Qed.

Lemma block_run lines entries :
  well_formed_block lines entries ->
  forall Store (commit : string -> BgpNeighbor -> Store -> Store) l st,
  exists l',
    range_with commit lines (l, st) = Some (l', replay commit entries st).
Proof.
  induction 1 as [|ls a r lines entries He _ IH]; intros Store commit l st.
  - exists l. reflexivity.
  - rewrite range_with_app, (entry_run ls a r He). simpl. apply IH.
Qed.

Lemma entry_key ls a r : complete_entry ls a r -> key r = a.
Proof.
  intros [h s p c a' w n e d ip vn ve vd _ _ _ _ Hip _ _ _].
  unfold key. simpl. now apply ParseIP_String.
Qed.

Lemma block_keys lines entries :
  well_formed_block lines entries ->
  Forall (fun kb => key (snd kb) = fst kb) entries.
Proof.
  induction 1 as [|ls a r lines entries He _ IH]; constructor; auto.
  exact (entry_key ls a r He).
Qed.

(** Commits under distinct keys that the store does not have yet are
    appended one after the other. *)
Lemma replay_distinct log : forall store,
  NoDup (map fst log) ->
  Forall (fun kb => key (snd kb) = fst kb) log ->
  (forall kb, In kb log -> ~ present (fst kb) store) ->
  replay upsert log store = store ++ map snd log.
Proof.
  induction log as [|[k b] log IH]; intros store Hd Hk Hn; simpl.
  - now rewrite app_nil_r.
  - inversion Hd as [|? ? Hk1 Hd']; subst.
    inversion Hk as [|? ? Hb Hk']; subst. simpl in Hb.
    rewrite upsert_absent by (apply (Hn (k, b)); now left).
    rewrite IH; [now rewrite <- app_assoc | assumption | assumption |].
    intros kb Hin (n & Hin' & E).
    apply in_app_or in Hin' as [Hin'|[<-|[]]].
    + apply (Hn kb); [now right | now exists n].
    + apply Hk1. apply in_map_iff. exists kb. split; [congruence|assumption].
Qed.

(** C2, counterexample.  The claim says that the counts of a committed
    record equal the values captured.  This block is a complete entry
    whose accepted-prefixes line captures the digits of 2^53 + 1; the
    record committed and stored has 2^53 accepted prefixes, the nearest
    number a [float64] field can hold. *)
Lemma exact_count_counterexample :
  well_formed_block (lines_of large_count_block)
    [("10.0.0.1",
      mkBgpNeighbor (Some (10, 0, 0, 1)%Z) 6%Z 9007199254740992%Z 12%Z 1%Z)] /\
  FindStringSubmatch bgpAcceptedPrefixesRegex
      "  9007199254740993 accepted prefixes" =
    ["  9007199254740993 accepted prefixes"; "9007199254740993"] /\
  strconv.decimal "9007199254740993" 0 = Some 9007199254740993%Z /\
  parseBGP large_count_block [] =
    Some [mkBgpNeighbor (Some (10, 0, 0, 1)%Z) 6%Z 9007199254740992%Z
            12%Z 1%Z] /\
  9007199254740992%Z <> 9007199254740993%Z.
Proof.
  split; [|split; [reflexivity|split; [reflexivity|split;
                                        [reflexivity | discriminate]]]].
  apply (WellFormedCons
           ["BGP neighbor is 10.0.0.1, remote AS ...";
            "  BGP state = Established, up for 3d";
            "  9007199254740993 accepted prefixes";
            "  Connections established 12; dropped 1"]
           "10.0.0.1"
           (mkBgpNeighbor (Some (10, 0, 0, 1)%Z) 6%Z 9007199254740992%Z
              12%Z 1%Z) [] []); [|constructor].
  apply (CompleteEntry _ _ _ _ "10.0.0.1" "Established"
           "9007199254740993" "12" "1" (10, 0, 0, 1)%Z
           9007199254740993%Z 12%Z 1%Z); reflexivity.
Qed.

(** C2, amended.  A block of N complete entries with distinct addresses
    that parse makes exactly N commits, one per entry and in order, each
    with the address and the state ordinal captured from the lines of its
    entry, and with, for the accepted prefixes and the two connection
    counters, the doubles nearest to the numbers captured; on an empty
    store they are the N records stored.  A number below 2^53 is stored as
    it is. *)
Theorem well_formed_block_commits s entries :
  well_formed_block (lines_of s) entries ->
  NoDup (map fst entries) ->
  commits s = Some entries /\
  parseBGP s [] = Some (map snd entries) /\
  List.length (map snd entries) = List.length entries /\
  (forall v, (v < strconv.two53)%Z -> strconv.nearest64 v = v).
Proof.
  intros Hw Hd. split; [|split; [|split]].
  - unfold commits, commits_from.
    destruct (block_run _ _ Hw commit_log record start []) as (l' & ->).
    simpl. now rewrite replay_record.
  - unfold parseBGP, range.
    destruct (block_run _ _ Hw _ upsert start []) as (l' & ->).
    simpl. rewrite replay_distinct.
    + reflexivity.
    + assumption.
    + exact (block_keys _ _ Hw).
    + intros kb _ (n & [] & _).
  - apply length_map.
  - exact strconv_facts.nearest64_exact.
Qed.

(** C2, the example of the specification: the four lines for 10.0.0.1 give
    exactly one record, with state 6, 5 accepted prefixes, 12 connections
    established and 1 dropped. *)
Lemma well_formed_block_commits_example :
  (well_formed_block (lines_of example_block) [("10.0.0.1", example_record)] /\
   NoDup (map fst [("10.0.0.1", example_record)])) /\
  commits example_block = Some [("10.0.0.1", example_record)] /\
  parseBGP example_block [] = Some [example_record] /\
  List.length [example_record] = 1%nat.
Proof.
  assert (Hw : well_formed_block (lines_of example_block)
                 [("10.0.0.1", example_record)]).
  { apply (WellFormedCons
             ["BGP neighbor is 10.0.0.1, remote AS ...";
              "  BGP state = Established, up for 3d";
              "  5 accepted prefixes";
              "  Connections established 12; dropped 1"]
             "10.0.0.1" example_record [] []); [|constructor].
    apply (CompleteEntry _ _ _ _ "10.0.0.1" "Established" "5" "12" "1"
             (10, 0, 0, 1)%Z 5%Z 12%Z 1%Z); reflexivity. }
  assert (Hd : NoDup (map fst [("10.0.0.1", example_record)])).
  { repeat constructor. intros []. }
  split; [split; assumption|].
  destruct (well_formed_block_commits example_block
              [("10.0.0.1", example_record)] Hw Hd) as (H1 & H2 & H3 & _).
  repeat split; assumption.
Defined.

(** ** C3: a state word outside the table *)

Lemma state_switch_other w : ~ In w state_words -> state_switch w = 0%Z.
Proof.
  intros H. unfold state_switch.
  repeat match goal with
         | |- context [String.eqb w ?x] =>
             destruct (String.eqb_spec w x) as [->|_];
             [contradiction H; simpl; tauto|]
         end.
  reflexivity.
Qed.

(** C3, counterexample.  The claim says that a state line with a word
    outside the table leaves the state of the record in progress as it was.
    The record in progress for 10.0.0.1 has state 6 (Established); the line
    with the word "Unknown" sets it to 0.  The same shows on a whole block:
    Established, then Unknown, then the counters commit a record of
    state 0. *)
Lemma unknown_state_word_counterexample :
  let b := mkBgpNeighbor (Some (10, 0, 0, 1)%Z) 6%Z 0%Z 0%Z 0%Z in
  let line := "  BGP state = Unknown, up for 3d" in
  FindStringSubmatch bgpStateRegex line = [line; "Unknown"] /\
  ~ In "Unknown" state_words /\
  loop_body line (mkLocals (Some b) "10.0.0.1", []) =
    Some (mkLocals (Some (mkBgpNeighbor (Some (10, 0, 0, 1)%Z) 0%Z 0%Z 0%Z 0%Z))
            "10.0.0.1", []) /\
  0%Z <> State b /\
  parseBGP unknown_state_block [] =
    Some [mkBgpNeighbor (Some (10, 0, 0, 1)%Z) 0%Z 0%Z 12%Z 1%Z].
Proof.
  cbv zeta. split; [reflexivity|]. split.
  { simpl. intros H. repeat destruct H as [H|H]; discriminate || exact H. }
  split; [reflexivity|]. split; [discriminate | reflexivity].
Qed.

(** C3, amended.  For every record in progress and every state line whose
    captured word is not one of the six of the table, the turn sets the
    state of the record to 0 (it is not an error); the accepted prefixes
    and the connection counters of the record, and the store, are as
    before. *)
Theorem unknown_state_word_resets line w l b store :
  bgpNeigh l = Some b -> neigh l <> "" ->
  FindStringSubmatch bgpStateRegex line = [line; w] ->
  ~ In w state_words ->
  exists b',
    loop_body line (l, store) = Some (mkLocals (Some b') (neigh l), store) /\
    State b' = 0%Z /\
    AcceptedPrefixes b' = AcceptedPrefixes b /\
    ConnectionsEstablished b' = ConnectionsEstablished b /\
    ConnectionsDropped b' = ConnectionsDropped b.
Proof.
  intros Hb Hn Hw Hother. unfold loop_body.
  rewrite (step_state upsert line w l b store Hb Hn Hw).
  eexists. split; [reflexivity|]. simpl.
  rewrite (state_switch_other w Hother). auto.
Qed.

(** C3, amended, on the record of the example in progress: the word
    "Unknown" takes its state from 6 to 0 and leaves its counters. *)
Lemma unknown_state_word_resets_example :
  let b := mkBgpNeighbor (Some (10, 0, 0, 1)%Z) 6%Z 5%Z 12%Z 1%Z in
  let l := mkLocals (Some b) "10.0.0.1" in
  let line := "  BGP state = Unknown, up for 3d" in
  exists b',
    loop_body line (l, []) = Some (mkLocals (Some b') (neigh l), []) /\
    State b' = 0%Z /\
    AcceptedPrefixes b' = AcceptedPrefixes b /\
    ConnectionsEstablished b' = ConnectionsEstablished b /\
    ConnectionsDropped b' = ConnectionsDropped b.
Proof.
  cbv zeta.
  apply (unknown_state_word_resets "  BGP state = Unknown, up for 3d"
           "Unknown" (mkLocals (Some example_record) "10.0.0.1")
           example_record []).
  - reflexivity.
  - simpl. discriminate.
  - reflexivity.
  - simpl. intros H. repeat destruct H as [H|H]; discriminate || exact H.
Defined.

(** ** C4: commits happen at counters lines only *)




(** ** C5: the commit inserts or replaces whole records *)

(** C5, counterexample.  The claim says that a commit replaces the stored
    record of the same identity key, so that old and new never stand side
    by side.  The store holds the record committed under "10.0.0", an
    address that does not parse: its address is nil and its key "<nil>".
    The commit of the next record under "10.0.0", with the same nil
    address and key, replaces nothing: both records are in the store.  Two
    polls of the router get there. *)
Lemma nil_address_upsert_counterexample :
  let old := mkBgpNeighbor None 0%Z 0%Z 12%Z 1%Z in
  let b := mkBgpNeighbor None 0%Z 0%Z 13%Z 2%Z in
  key b = key old /\
  present (key b) [old] /\
  upsert "10.0.0" b [old] = [old; b] /\
  polls [short_address_block; short_address_block_later] [] = Some [old; b].
Proof.
  cbv zeta. split; [reflexivity|]. split.
  - eexists. split; [now left | reflexivity].
  - split; reflexivity.
Qed.

(** C5, amended.  For every store and every commit of a record whose
    address parsed (the record [b] carries the address that the text [k]
    it is committed under parses to): the key of [b] is [k]; when no stored
    record has that key the record is appended; otherwise every stored
    record of that key is replaced by [b] as a whole and nothing is added.
    Either way [b] is in the store afterwards, any record found under its
    key afterwards is [b] itself, with all its fields, and the records of
    other keys are still there. *)
Theorem upsert_parsed_insert_or_replace store k b ip :
  net.ParseIP k = Some ip -> IP b = Some ip ->
  key b = k /\
  (~ present (key b) store -> upsert k b store = store ++ [b]) /\
  (present (key b) store ->
   upsert k b store =
     map (fun n => if String.eqb (key n) (key b) then b else n) store) /\
  In b (upsert k b store) /\
  (forall n, In n (upsert k b store) -> key n = key b -> n = b) /\
  (forall n, In n store -> key n <> key b -> In n (upsert k b store)).
Proof.
  intros Hk Hb.
  assert (E : key b = k) by (apply (key_commit k b ip); congruence).
  rewrite E. split; [reflexivity|].
  split; [apply upsert_absent|]. split; [apply upsert_present|].
  split; [apply upsert_In|]. split.
  - intros n Hn En. apply upsert_inv in Hn as [Hn|[_ Hn]];
      [assumption | contradiction].
  - intros n. apply upsert_other.
Qed.

(** C5, amended, on the example: the record of 10.0.0.1 is stored with 5
    accepted prefixes; a commit of the record with 9 replaces it, and the
    record of 10.0.0.2 is kept. *)
Lemma upsert_parsed_insert_or_replace_example :
  let old := example_record in
  let other := mkBgpNeighbor (Some (10, 0, 0, 2)%Z) 3%Z 0%Z 4%Z 4%Z in
  let b := mkBgpNeighbor (Some (10, 0, 0, 1)%Z) 6%Z 9%Z 13%Z 1%Z in
  upsert "10.0.0.1" b [old; other] = [b; other] /\
  upsert "10.0.0.1" b [other] = [other; b] /\
  (forall n, In n (upsert "10.0.0.1" b [old; other]) ->
             key n = key b -> n = b).
Proof.
  cbv zeta. split; [reflexivity|]. split; [reflexivity|].
  exact (proj1 (proj2 (proj2 (proj2 (proj2
           (upsert_parsed_insert_or_replace
              [example_record;
               mkBgpNeighbor (Some (10, 0, 0, 2)%Z) 3%Z 0%Z 4%Z 4%Z]
              "10.0.0.1"
              (mkBgpNeighbor (Some (10, 0, 0, 1)%Z) 6%Z 9%Z 13%Z 1%Z)
              (10, 0, 0, 1)%Z eq_refl eq_refl)))))).
Defined.

(** ** C6: after a commit *)

(** C6, counterexample.  The claim says that after a commit the lines up to
    the next header update no field and commit nothing more for the
    identity.  In this block the accepted-prefixes line that follows the
    first commit of 10.0.0.1 still sets the field of the record in
    progress, and the second counters line commits it again: two commits
    under 10.0.0.1 without a header in between, the stored record being the
    second. *)
Lemma recommit_counterexample :
  commits recommit_block =
    Some [("10.0.0.1", mkBgpNeighbor (Some (10, 0, 0, 1)%Z) 0%Z 0%Z 12%Z 1%Z);
          ("10.0.0.1", mkBgpNeighbor (Some (10, 0, 0, 1)%Z) 0%Z 7%Z 13%Z 2%Z)] /\
  parseBGP recommit_block [] =
    Some [mkBgpNeighbor (Some (10, 0, 0, 1)%Z) 0%Z 7%Z 13%Z 2%Z].
Proof. split; reflexivity. Qed.

(** Lines that are neither headers nor counters lines keep the pointer on
    a record of the same identity and commit nothing. *)
Lemma between_lines lines : forall r k,
  k <> "" ->
  Forall (fun x => MatchString bgpNeighborRegex x = false /\
                   MatchString bgpConnectionsEstablishedDroppedRegex x = false)
    lines ->
  exists r',
    forall Store (commit : string -> BgpNeighbor -> Store -> Store) st,
      range_with commit lines (mkLocals (Some r) k, st) =
        Some (mkLocals (Some r') k, st).
Proof.
  induction lines as [|x lines IH]; intros r k Hk Hq.
  - exists r. reflexivity.
  - inversion Hq as [|? ? [Hh Hc] Hq']; subst.
    assert (Hx : exists r1,
               forall Store (commit : string -> BgpNeighbor -> Store -> Store) st,
                 loop_body_with commit x (mkLocals (Some r) k, st) =
                   Some (mkLocals (Some r1) k, st)).
    { destruct (MatchString bgpStateRegex x) eqn:Hs.
      { destruct (state_submatch _ Hs) as (w & Hw).
        eexists. intros. now apply (step_state commit x w). }
      destruct (MatchString bgpAcceptedPrefixesRegex x) eqn:Hp.
      { destruct (prefixes_submatch _ Hp) as (p & Hw).
        eexists. intros. now apply (step_prefixes commit x p). }
      eexists. intros. now apply step_other. }
    destruct Hx as (r1 & Hx).
    destruct (IH r1 k Hk Hq') as (r' & Hrest).
    exists r'. intros. cbn [range_with]. now rewrite Hx, Hrest.
Qed.

(** C6, amended.  A commit does not clear the pointer: after a counters
    line the locals still hold the committed record under the same
    identity.  The lines from there to the next header that are not
    counters lines make no commit and leave the store unchanged, though an
    accepted-prefixes line (or a state line) among them still sets its
    field of the record in progress; and a further counters line commits
    the record in progress again under the same identity. *)
Theorem pointer_kept_after_commit line e d l b store between :
  bgpNeigh l = Some b -> neigh l <> "" ->
  FindStringSubmatch bgpConnectionsEstablishedDroppedRegex line = [line; e; d] ->
  Forall (fun x => MatchString bgpNeighborRegex x = false /\
                   MatchString bgpConnectionsEstablishedDroppedRegex x = false)
    between ->
  let k := neigh l in
  let r := completed b k e d in
  let store1 := upsert k r store in
  loop_body line (l, store) = Some (mkLocals (Some r) k, store1) /\
  (forall p n,
      FindStringSubmatch bgpAcceptedPrefixesRegex p = [p; n] ->
      exists r1,
        loop_body p (mkLocals (Some r) k, store1) =
          Some (mkLocals (Some r1) k, store1) /\
        AcceptedPrefixes r1 = fst (strconv.ParseFloat n)) /\
  (forall s w,
      FindStringSubmatch bgpStateRegex s = [s; w] ->
      exists r1,
        loop_body s (mkLocals (Some r) k, store1) =
          Some (mkLocals (Some r1) k, store1) /\
        State r1 = state_switch w) /\
  exists r',
    range between (mkLocals (Some r) k, store1) =
      Some (mkLocals (Some r') k, store1) /\
    forall line2 e2 d2,
      FindStringSubmatch bgpConnectionsEstablishedDroppedRegex line2 =
        [line2; e2; d2] ->
      loop_body line2 (mkLocals (Some r') k, store1) =
        Some (mkLocals (Some (completed r' k e2 d2)) k,
              upsert k (completed r' k e2 d2) store1).
Proof.
  intros Hb Hn Hc Hq k r store1. split; [|split; [|split]].
  - now apply step_counters.
  - intros p n Hp. eexists. split.
    + now apply (step_prefixes upsert p n).
    + reflexivity.
  - intros s w Hs. eexists. split.
    + now apply (step_state upsert s w).
    + reflexivity.
  - destruct (between_lines between r k Hn Hq) as (r' & Hr).
    exists r'. split; [apply Hr|].
    intros line2 e2 d2 H2.
    now apply (step_counters upsert line2 e2 d2 (mkLocals (Some r') k)).
Qed.

(** C6, amended, on an example: after the commit of 10.0.0.1 the locals
    still hold the record, and a prefixes line and a blank line leave the
    store as it is. *)
Lemma pointer_kept_after_commit_example :
  let l := mkLocals (Some (mkBgpNeighbor (Some (10, 0, 0, 1)%Z) 6%Z 5%Z 0%Z 0%Z))
             "10.0.0.1" in
  let r := mkBgpNeighbor (Some (10, 0, 0, 1)%Z) 6%Z 5%Z 12%Z 1%Z in
  loop_body "  Connections established 12; dropped 1" (l, []) =
    Some (mkLocals (Some r) "10.0.0.1", [r]) /\
  exists r',
    range ["  7 accepted prefixes"; ""] (mkLocals (Some r) "10.0.0.1", [r]) =
      Some (mkLocals (Some r') "10.0.0.1", [r]).
Proof.
  cbv zeta.
  destruct (pointer_kept_after_commit
              "  Connections established 12; dropped 1" "12" "1"
              (mkLocals
                 (Some (mkBgpNeighbor (Some (10, 0, 0, 1)%Z) 6%Z 5%Z 0%Z 0%Z))
                 "10.0.0.1")
              (mkBgpNeighbor (Some (10, 0, 0, 1)%Z) 6%Z 5%Z 0%Z 0%Z)
              [] ["  7 accepted prefixes"; ""])
    as (H1 & _ & _ & r' & H2 & _).
  - reflexivity.
  - simpl. discriminate.
  - reflexivity.
  - repeat constructor.
  - split; [exact H1|]. exists r'. exact H2.
Defined.

(** ** C7: a header whose address does not parse *)

(** C7, counterexample.  The claim says that a header whose address does
    not parse opens no record, so that nothing is committed under it.  The
    address "10.0.0" has three octets and does not parse; the header still
    opens a record and the counters line commits it, with a nil address. *)
Lemma unparseable_address_counterexample :
  FindStringSubmatch bgpNeighborRegex "BGP neighbor is 10.0.0, remote AS ..." =
    ["BGP neighbor is 10.0.0, remote AS ..."; "10.0.0"] /\
  net.ParseIP "10.0.0" = None /\
  loop_body "BGP neighbor is 10.0.0, remote AS ..." (start, []) =
    Some (mkLocals (Some new_BgpNeighbor) "10.0.0", []) /\
  commits short_address_block =
    Some [("10.0.0", mkBgpNeighbor None 0%Z 0%Z 12%Z 1%Z)] /\
  parseBGP short_address_block [] =
    Some [mkBgpNeighbor None 0%Z 0%Z 12%Z 1%Z].
Proof. repeat split; reflexivity. Qed.

Lemma not_nil_text a : all digit_or_dot a = true -> a <> "<nil>".
Proof. intros H ->. discriminate. Qed.

(** No record made by [parseBGP] is found under a text that does not
    parse. *)
Lemma unparseable_absent a store :
  Forall faithful store -> all digit_or_dot a = true ->
  net.ParseIP a = None -> ~ present a store.
Proof.
  intros Hf Ha Hp (n & Hn & E).
  rewrite Forall_forall in Hf. specialize (Hf n Hn).
  unfold faithful in Hf. rewrite E, Hp in Hf.
  unfold key in E. rewrite Hf in E. simpl in E.
  now apply (not_nil_text a).
Qed.

(** X14.  On a store made by [parseBGP], a commit under a text that does not
    parse finds nothing to overwrite and appends. *)
Lemma unparseable_commit_appends a r store :
  store_ok store -> all digit_or_dot a = true -> net.ParseIP a = None ->
  upsert a r store = store ++ [r].
Proof.
  intros [Hf _] Ha Hp. apply upsert_absent. now apply unparseable_absent.
Qed.

(** C7, amended.  For every header whose captured address does not parse,
    the turn still opens a record in progress, under the captured text and
    with a nil address, and a counters line after it commits that record:
    it is in the store afterwards, with the nil address. *)
Theorem unparseable_address_still_opens h a c e d l store :
  FindStringSubmatch bgpNeighborRegex h = [h; a] ->
  net.ParseIP a = None ->
  FindStringSubmatch bgpConnectionsEstablishedDroppedRegex c = [c; e; d] ->
  let r := mkBgpNeighbor None 0%Z 0%Z (fst (strconv.ParseFloat e))
             (fst (strconv.ParseFloat d)) in
  a <> "" /\
  loop_body h (l, store) = Some (mkLocals (Some new_BgpNeighbor) a, store) /\
  loop_body c (mkLocals (Some new_BgpNeighbor) a, store) =
    Some (mkLocals (Some r) a, upsert a r store) /\
  In r (upsert a r store).
Proof.
  intros Hh Hp Hc r.
  destruct (neighbor_capture_class _ _ _ Hh) as [Ha Hall].
  split; [assumption|]. split; [|split].
  - unfold loop_body. rewrite (step_header upsert h a l store Hh), Hp.
    reflexivity.
  - unfold loop_body.
    rewrite (step_counters upsert c e d
               (mkLocals (Some new_BgpNeighbor) a) new_BgpNeighbor store
               eq_refl Ha Hc).
    cbn [neigh]. unfold completed. rewrite Hp. reflexivity.
  - apply upsert_In.
Qed.

(** C7, amended, on the address "10.0.0". *)
Lemma unparseable_address_still_opens_example :
  let r := mkBgpNeighbor None 0%Z 0%Z 12%Z 1%Z in
  "10.0.0" <> "" /\
  loop_body "BGP neighbor is 10.0.0, remote AS ..." (start, [example_record]) =
    Some (mkLocals (Some new_BgpNeighbor) "10.0.0", [example_record]) /\
  loop_body "  Connections established 12; dropped 1"
      (mkLocals (Some new_BgpNeighbor) "10.0.0", [example_record]) =
    Some (mkLocals (Some r) "10.0.0", upsert "10.0.0" r [example_record]) /\
  In r (upsert "10.0.0" r [example_record]).
Proof.
  cbv zeta.
  apply (unparseable_address_still_opens
           "BGP neighbor is 10.0.0, remote AS ..." "10.0.0"
           "  Connections established 12; dropped 1" "12" "1"
           start [example_record]);
    reflexivity.
Defined.

(** ** C9: lines that match no pattern *)

Lemma padded_range lines lines' :
  padded lines lines' ->
  forall Store (commit : string -> BgpNeighbor -> Store -> Store) l st,
    consistent l ->
    range_with commit lines' (l, st) = range_with commit lines (l, st).
Proof.
  induction 1 as [|x lines lines' _ IH|x lines lines' (H1 & H2 & H3 & H4) _ IH];
    intros Store commit l st Hl.
  - reflexivity.
  - cbn [range_with].
    destruct (step_cases x l Hl) as (l1 & c & Hl1 & Hstep & _).
    rewrite Hstep. now apply IH.
  - cbn [range_with]. rewrite step_unrecognized by assumption. now apply IH.
Qed.

(** C9.  If the lines of block [s'] are those of block [s] with lines that
    match none of the four patterns inserted at any positions, the two
    blocks make the same commits in the same order, and have the same
    effect on every store. *)
Theorem unrecognized_lines_ignored s s' :
  padded (lines_of s) (lines_of s') ->
  commits s' = commits s /\
  forall store, parseBGP s' store = parseBGP s store.
Proof.
  intros H. split.
  - unfold commits, commits_from.
    now rewrite (padded_range _ _ H _ record start [] consistent_start).
  - intros store. unfold parseBGP, range.
    now rewrite (padded_range _ _ H _ upsert start store consistent_start).
Qed.

(** C9 on the example of the specification, padded with two blank lines
    and two lines of other text. *)
Lemma unrecognized_lines_ignored_example :
  padded (lines_of example_block) (lines_of padded_example_block) /\
  commits padded_example_block = commits example_block /\
  forall store,
    parseBGP padded_example_block store = parseBGP example_block store.
Proof.
  assert (H : padded (lines_of example_block) (lines_of padded_example_block)).
  { vm_compute.
    apply PaddedInsert; [repeat split; reflexivity|].
    apply PaddedKeep.
    apply PaddedInsert; [repeat split; reflexivity|].
    apply PaddedKeep. apply PaddedKeep.
    apply PaddedInsert; [repeat split; reflexivity|].
    apply PaddedKeep.
    apply PaddedInsert; [repeat split; reflexivity|].
    apply PaddedNil. }
  split; [exact H|].
  exact (unrecognized_lines_ignored example_block padded_example_block H).
Defined.

(** ** C10: the store over successive polls *)

Lemma replay_app {Store} (commit : string -> BgpNeighbor -> Store -> Store)
    log1 log2 st :
  replay commit (log1 ++ log2) st = replay commit log2 (replay commit log1 st).
Proof. apply fold_left_app. Qed.

Lemma polls_replay blocks :
  exists log,
    log_ok log /\ poll_commits blocks = Some log /\
    forall store, polls blocks store = Some (replay upsert log store).
Proof.
  induction blocks as [|s blocks (logs & Hok & Hlogs & IH)].
  - exists []. repeat split; constructor.
  - destruct (parseBGP_replay s) as (log & Hlog & Hc & Hp).
    exists (log ++ logs). split; [|split].
    + apply Forall_app. now split.
    + simpl. now rewrite Hc, Hlogs.
    + intros store. simpl. now rewrite Hp, IH, replay_app.
Qed.

(** A record committed under an address that parses stays in the store as
    long as no later commit is made under that address. *)
Lemma replay_keeps log : forall store b,
  In b store -> ~ In (key b) (map fst log) ->
  In b (replay upsert log store).
Proof.
  induction log as [|[k c] log IH]; intros store b Hb Hk; simpl.
  - assumption.
  - apply IH.
    + apply upsert_other; [assumption|]. intros E. apply Hk. now left.
    + intros H. apply Hk. now right.
Qed.

(** C10, counterexample.  The claim says that the store holds at most one
    record per identity key.  Two polls of the same block, whose header has
    the address "10.0.0" that does not parse, leave two records with the
    same nil address, hence the same key. *)
Lemma one_record_per_key_counterexample :
  let r := mkBgpNeighbor None 0%Z 0%Z 12%Z 1%Z in
  polls two_short_address_polls [] = Some [r; r] /\
  key r = "<nil>" /\
  ~ NoDup (map key [r; r]).
Proof.
  cbv zeta. split; [reflexivity|]. split; [reflexivity|].
  intros H. inversion H as [|? ? Hn _]; subst. apply Hn. now left.
Qed.

(** C10, amended.  Over every sequence of polls, from a store made by
    [parseBGP] (the empty store at the start of the process): every block
    is parsed without a panic; the store never shrinks, every key present
    stays present, and a record committed under an address that parses is
    in the store at the end if no later commit was made under that address;
    and the store holds at most one record per key among the records whose
    address parsed (records committed under an address that does not parse
    have the nil address and are not covered). *)
Theorem store_never_shrinks blocks store :
  store_ok store ->
  exists store' log,
    polls blocks store = Some store' /\
    poll_commits blocks = Some log /\
    (List.length store <= List.length store')%nat /\
    (forall k, present k store -> present k store') /\
    (forall log1 k b log2,
        log = log1 ++ (k, b) :: log2 ->
        net.ParseIP k <> None -> ~ In k (map fst log2) ->
        In b store' /\ key b = k) /\
    NoDup (map key (filter parsed store')) /\
    store_ok store'.
Proof.
  intros Hs.
  destruct (polls_replay blocks) as (log & Hlog & Hc & Hp).
  destruct (replay_ok log store Hs Hlog) as (Hok & Hlen & Hkeep).
  exists (replay upsert log store), log.
  split; [apply Hp|]. split; [assumption|]. split; [assumption|].
  split; [assumption|]. split; [|split; [apply Hok | assumption]].
  intros log1 k b log2 -> Hk Hlater.
  apply Forall_app in Hlog as [_ Hlog].
  inversion Hlog as [|? ? Hb _]; subst. simpl in Hb.
  destruct (net.ParseIP k) as [ip|] eqn:Hip; [|congruence].
  assert (E : key b = k) by (apply (key_commit k b ip); congruence).
  split; [|assumption].
  rewrite replay_app. simpl. apply replay_keeps.
  - apply upsert_In.
  - now rewrite E.
Qed.

(** C10, amended, on three polls from the empty store. *)
Lemma store_never_shrinks_example :
  store_ok [] /\
  exists store' log,
    polls [example_block; short_address_block; recommit_block] [] =
      Some store' /\
    poll_commits [example_block; short_address_block; recommit_block] =
      Some log /\
    (List.length (@nil BgpNeighbor) <= List.length store')%nat /\
    (forall k, present k [] -> present k store') /\
    (forall log1 k b log2,
        log = log1 ++ (k, b) :: log2 ->
        net.ParseIP k <> None -> ~ In k (map fst log2) ->
        In b store' /\ key b = k) /\
    NoDup (map key (filter parsed store')) /\
    store_ok store'.
Proof.
  split; [exact store_ok_nil|].
  exact (store_never_shrinks
           [example_block; short_address_block; recommit_block] []
           store_ok_nil).
Defined.


(** * Further properties of the code *)

(** ** What the four patterns accept *)

Lemma strip_prefix_complete l s : strip_prefix l (l ++ s) = Some s.
Proof.
  induction l as [|a l IH]; simpl; [reflexivity|].
  now rewrite Ascii.eqb_refl.
Qed.

(** A repetition takes the whole of a run that cannot go on, when what
    follows the run matches the rest of the pattern. *)
Lemma greedy_maximal c k m : forall ok acc rest r,
  all c m = true -> stops_at c rest -> (ok = true \/ m <> "") ->
  k (acc ++ m)%string rest = Some r ->
  greedy c k ok acc (m ++ rest) = Some r.
Proof.
  induction m as [|a m IH]; intros ok acc rest r Hall Hstop Hok Hk.
  - destruct Hok as [->|Hm]; [|congruence].
    rewrite append_nil_r in Hk. simpl.
    destruct rest as [|b rest]; simpl; [assumption|].
    simpl in Hstop. now rewrite Hstop.
  - simpl in Hall. apply andb_prop in Hall as [Ha Hall].
    cbn [append greedy]. rewrite Ha.
    rewrite (IH true (acc ++ String a "")%string rest r); auto.
    now rewrite append_assoc.
Qed.

Lemma exec_end s gs : exec [] s = Some gs -> s = "" /\ gs = [].
Proof. destruct s; simpl; [|discriminate]. intros H. now inversion H. Qed.

Lemma exec_lit l re s gs :
  exec (Lit l :: re) s = Some gs ->
  exists s', s = (l ++ s')%string /\ exec re s' = Some gs.
Proof.
  simpl. destruct (strip_prefix l s) as [s'|] eqn:E; [|discriminate].
  intros H. exists s'. split; [now apply strip_prefix_app | assumption].
Qed.

Lemma exec_lit_complete l re s gs :
  exec re s = Some gs -> exec (Lit l :: re) (l ++ s) = Some gs.
Proof. intros H. simpl. now rewrite strip_prefix_complete. Qed.

Lemma exec_star c re s gs :
  exec (Star c :: re) s = Some gs ->
  exists m rest,
    s = (m ++ rest)%string /\ all c m = true /\ exec re rest = Some gs.
Proof.
  simpl; intros H.
  apply greedy_sound in H as (m & rest & -> & Hall & _ & H).
  now exists m, rest.
Qed.

Lemma exec_star_complete c re m rest gs :
  all c m = true -> stops_at c rest -> exec re rest = Some gs ->
  exec (Star c :: re) (m ++ rest) = Some gs.
Proof. intros Hall Hstop H. simpl. apply greedy_maximal; auto. Qed.

Lemma exec_plus_complete c re m rest gs :
  m <> "" -> all c m = true -> stops_at c rest -> exec re rest = Some gs ->
  exec (Plus c :: re) (m ++ rest) = Some gs.
Proof. intros Hm Hall Hstop H. simpl. apply greedy_maximal; auto. Qed.

Lemma exec_group_complete c re m rest gs :
  m <> "" -> all c m = true -> stops_at c rest -> exec re rest = Some gs ->
  exec (Group c :: re) (m ++ rest) = Some (m :: gs).
Proof.
  intros Hm Hall Hstop H. simpl. apply greedy_maximal; auto.
  simpl. now rewrite H.
Qed.

Lemma exec_tail c m : all c m = true -> exec [Star c] m = Some [].
Proof.
  intros H. rewrite <- (append_nil_r m).
  now apply exec_star_complete.
Qed.

Lemma exec_tail_inv c s gs :
  exec [Star c] s = Some gs -> all c s = true /\ gs = [].
Proof.
  intros H. apply exec_star in H as (m & rest & -> & Hall & H).
  apply exec_end in H as [-> ->]. now rewrite append_nil_r.
Qed.

Lemma submatch_exec re line gs :
  FindStringSubmatch re line = line :: gs <-> exec re line = Some gs.
Proof.
  unfold FindStringSubmatch. destruct (exec re line) as [gs'|].
  - split; intros H; inversion H; reflexivity.
  - split; discriminate.
Qed.

Lemma take_drop c s : s = (take_while c s ++ drop_while c s)%string.
Proof.
  induction s as [|a s IH]; simpl; [reflexivity|].
  destruct (c a); simpl; [now rewrite <- IH | reflexivity].
Qed.

Lemma take_while_all c s : all c (take_while c s) = true.
Proof.
  induction s as [|a s IH]; simpl; [reflexivity|].
  destruct (c a) eqn:E; simpl; [now rewrite E | reflexivity].
Qed.

Lemma drop_while_stops c s : stops_at c (drop_while c s).
Proof.
  induction s as [|a s IH]; simpl; [exact I|].
  destruct (c a) eqn:E; [assumption | exact E].
Qed.

Lemma drop_while_all c d s : all d s = true -> all d (drop_while c s) = true.
Proof.
  induction s as [|a s IH]; simpl; [reflexivity|].
  intros H. destruct (c a); [|assumption].
  apply andb_prop in H as [_ H]. auto.
Qed.

Lemma take_while_stops c s : stops_at c s -> take_while c s = "".
Proof. destruct s as [|a s]; simpl; [reflexivity | now intros ->]. Qed.

Lemma append_same_l (s t : string) : (s ++ t)%string = s -> t = "".
Proof.
  induction s as [|a s IH]; simpl; [auto|].
  intros H. injection H as H. auto.
Qed.

(** X1.  The header pattern: exactly the lines made of the words
    ["BGP neighbor is "], a non-empty run of digits and dots, a comma and a
    space, and anything up to the end of the line; the run is the address
    captured. *)
Theorem header_pattern line a :
  FindStringSubmatch bgpNeighborRegex line = [line; a] <->
  exists rest,
    line = ("BGP neighbor is " ++ a ++ ", " ++ rest)%string /\
    a <> "" /\ all digit_or_dot a = true /\ all dot rest = true.
Proof.
  rewrite submatch_exec. unfold bgpNeighborRegex. split.
  - intros H. apply exec_lit in H as (s1 & -> & H).
    apply exec_group in H as (m & s2 & gs & E & -> & Hm & Hall & H).
    injection E as <- <-.
    apply exec_lit in H as (s3 & -> & H).
    apply exec_tail_inv in H as [Hrest _].
    now exists s3.
  - intros (rest & -> & Ha & Hall & Hrest).
    apply exec_lit_complete. apply exec_group_complete; auto.
    + reflexivity.
    + apply exec_lit_complete. now apply exec_tail.
Qed.

(** X2.  The state pattern: leading white space, ["BGP state = "], a non-empty
    word, a comma and a space, and anything up to the end of the line; the
    word is captured. *)
Theorem state_pattern line w :
  FindStringSubmatch bgpStateRegex line = [line; w] <->
  exists ws rest,
    line = (ws ++ "BGP state = " ++ w ++ ", " ++ rest)%string /\
    ws <> "" /\ all space ws = true /\
    w <> "" /\ all word w = true /\ all dot rest = true.
Proof.
  rewrite submatch_exec. unfold bgpStateRegex. split.
  - intros H. apply exec_plus_space in H as (ws & s1 & -> & Hws & Hsp & H).
    apply exec_lit in H as (s2 & -> & H).
    apply exec_group in H as (m & s3 & gs & E & -> & Hm & Hall & H).
    injection E as <- <-.
    apply exec_lit in H as (s4 & -> & H).
    apply exec_tail_inv in H as [Hrest _].
    now exists ws, s4.
  - intros (ws & rest & -> & Hws & Hsp & Hw & Hall & Hrest).
    apply exec_plus_complete; auto; [reflexivity|].
    apply exec_lit_complete. apply exec_group_complete; auto.
    + reflexivity.
    + apply exec_lit_complete. now apply exec_tail.
Qed.

Lemma prefixes_sound line n :
  exec bgpAcceptedPrefixesRegex line = Some [n] ->
  exists ws tail,
    line = (ws ++ n ++ " accepted prefixes" ++ tail)%string /\
    ws <> "" /\ all space ws = true /\
    n <> "" /\ all digit n = true /\ all word tail = true.
Proof.
  unfold bgpAcceptedPrefixesRegex. intros H.
  apply exec_plus_space in H as (ws & s1 & -> & Hws & Hsp & H).
  apply exec_group in H as (m & s2 & gs & E & -> & Hm & Hall & H).
  injection E as <- <-.
  apply exec_lit in H as (s3 & -> & H).
  apply exec_tail_inv in H as [Hrest _].
  now exists ws, s3.
Qed.

(** X3.  The accepted-prefixes pattern: leading white space, a non-empty run of
    digits, [" accepted prefixes"], and nothing after it but letters,
    digits and underscores; the digits are captured. *)
Theorem prefixes_pattern line n :
  FindStringSubmatch bgpAcceptedPrefixesRegex line = [line; n] <->
  exists ws tail,
    line = (ws ++ n ++ " accepted prefixes" ++ tail)%string /\
    ws <> "" /\ all space ws = true /\
    n <> "" /\ all digit n = true /\ all word tail = true.
Proof.
  rewrite submatch_exec. split; [apply prefixes_sound|].
  unfold bgpAcceptedPrefixesRegex.
  intros (ws & tail & -> & Hws & Hsp & Hn & Hall & Htail).
  apply exec_plus_complete; auto.
  - destruct n as [|d n]; [congruence|]. simpl in *.
    apply andb_prop in Hall as [Hd _]. now apply digit_not_space.
  - apply exec_group_complete; auto; [reflexivity|].
    apply exec_lit_complete. now apply exec_tail.
Qed.

Lemma all_app c s t : all c (s ++ t) = all c s && all c t.
Proof.
  induction s as [|a s IH]; simpl; [reflexivity|].
  now rewrite IH, andb_assoc.
Qed.

Lemma take_while_nil c s : take_while c s = "" -> stops_at c s.
Proof.
  destruct s as [|a s]; simpl; [auto|].
  destruct (c a); [discriminate | reflexivity].
Qed.

Lemma counters_complete ws e d tail :
  ws <> "" -> all space ws = true ->
  e <> "" -> all digit e = true ->
  d <> "" -> all digit d = true ->
  all word tail = true -> stops_at digit tail ->
  exec bgpConnectionsEstablishedDroppedRegex
    (ws ++ "Connections established " ++ e ++ "; dropped " ++ d ++ tail) =
    Some [e; d].
Proof.
  intros Hws Hsp He Hde Hd Hdd Htail Hstop.
  unfold bgpConnectionsEstablishedDroppedRegex.
  apply exec_plus_complete; auto; [reflexivity|].
  apply exec_lit_complete. apply exec_group_complete; auto; [reflexivity|].
  apply exec_lit_complete. apply exec_group_complete; auto.
  now apply exec_tail.
Qed.

Lemma counters_sound line e d :
  exec bgpConnectionsEstablishedDroppedRegex line = Some [e; d] ->
  exists ws tail,
    line = (ws ++ "Connections established " ++ e ++ "; dropped " ++
            d ++ tail)%string /\
    ws <> "" /\ all space ws = true /\
    e <> "" /\ all digit e = true /\
    d <> "" /\ all digit d = true /\
    all word tail = true.
Proof.
  unfold bgpConnectionsEstablishedDroppedRegex. intros H.
  apply exec_plus_space in H as (ws & s1 & -> & Hws & Hsp & H).
  apply exec_lit in H as (s2 & -> & H).
  apply exec_group in H as (m & s3 & gs & E & -> & He & Hde & H).
  injection E as <- <-.
  apply exec_lit in H as (s4 & -> & H).
  apply exec_group in H as (m' & tail & gs' & E & -> & Hd & Hdd & H).
  injection E as <- <-.
  apply exec_tail_inv in H as [Htail _].
  exists ws, tail. repeat split; auto.
Qed.

(** X4.  The counters pattern: leading white space, ["Connections established "],
    a non-empty run of digits, ["; dropped "], a second non-empty run of
    digits taken as far as it goes, and then up to the end of the line only
    letters, digits and underscores; the two runs are captured.  A line
    with anything else after the second count, a space or a carriage return
    say, is not a counters line. *)
Theorem counters_pattern line e d :
  FindStringSubmatch bgpConnectionsEstablishedDroppedRegex line = [line; e; d]
  <->
  exists ws tail,
    line = (ws ++ "Connections established " ++ e ++ "; dropped " ++
            d ++ tail)%string /\
    ws <> "" /\ all space ws = true /\
    e <> "" /\ all digit e = true /\
    d <> "" /\ all digit d = true /\
    all word tail = true /\ stops_at digit tail.
Proof.
  rewrite submatch_exec. split.
  - intros H0.
    destruct (counters_sound line e d H0)
      as (ws & tail & -> & Hws & Hsp & He & Hde & Hd & Hdd & Htail).
    exists ws, tail. repeat split; auto.
    apply take_while_nil. apply (append_same_l d).
    assert (Hc : exec bgpConnectionsEstablishedDroppedRegex
                   (ws ++ "Connections established " ++ e ++ "; dropped " ++
                    (d ++ take_while digit tail) ++ drop_while digit tail) =
                 Some [e; (d ++ take_while digit tail)%string]).
    { apply counters_complete; auto.
      - destruct d; [congruence | discriminate].
      - now rewrite all_app, Hdd, take_while_all.
      - now apply drop_while_all.
      - apply drop_while_stops. }
    rewrite append_assoc, <- take_drop in Hc.
    rewrite Hc in H0. now injection H0.
  - intros (ws & tail & -> & H). now apply counters_complete.
Qed.

(** X5.  A line matches at most one of the four patterns. *)
Theorem patterns_exclusive line :
  (List.length
     (filter (fun re => MatchString re line)
        [bgpNeighborRegex; bgpStateRegex; bgpAcceptedPrefixesRegex;
         bgpConnectionsEstablishedDroppedRegex]) <= 1)%nat.
Proof.
  cbn [filter].
  destruct (MatchString bgpNeighborRegex line) eqn:Hh.
  { destruct (header_only _ Hh) as (-> & -> & ->). simpl. lia. }
  destruct (MatchString bgpStateRegex line) eqn:Hs.
  { destruct (state_only _ Hs) as (_ & -> & ->). simpl. lia. }
  destruct (MatchString bgpAcceptedPrefixesRegex line) eqn:Hp.
  { destruct (prefixes_only _ Hp) as (_ & _ & ->). simpl. lia. }
  destruct (MatchString bgpConnectionsEstablishedDroppedRegex line);
    simpl; lia.
Qed.

(** ** The lines of a text *)

Lemma Split_not_nil s sep : strings.Split s sep <> [].
Proof.
  destruct s as [|c s]; simpl; [discriminate|].
  destruct (Ascii.eqb c sep); [discriminate|].
  destruct (strings.Split s sep); discriminate.
Qed.

(** Splitting at a separator that is there splits the two sides. *)
Lemma Split_app t u sep :
  strings.Split (t ++ String sep u) sep =
    strings.Split t sep ++ strings.Split u sep.
Proof.
  induction t as [|c t IH]; simpl.
  - now rewrite Ascii.eqb_refl.
  - destruct (Ascii.eqb c sep); [now rewrite IH|].
    rewrite IH. pose proof (Split_not_nil t sep).
    destruct (strings.Split t sep); [contradiction | reflexivity].
Qed.

Lemma TrimSuffix_app (a b : string) c :
  b <> "" ->
  strings.TrimSuffix (a ++ b) (String c "") =
    (a ++ strings.TrimSuffix b (String c ""))%string.
Proof.
  intros Hb. induction a as [|x a IH]; [reflexivity|].
  cbn [append strings.TrimSuffix].
  destruct (String.eqb_spec (String x (a ++ b)) (String c "")) as [E|_].
  - injection E as _ E. destruct a; simpl in E; congruence.
  - now rewrite IH.
Qed.

Lemma TrimSuffix_one (s : string) c :
  strings.TrimSuffix (s ++ String c "") (String c "") = s.
Proof.
  induction s as [|x s IH]; cbn [append strings.TrimSuffix].
  - now rewrite String.eqb_refl.
  - destruct (String.eqb_spec (String x (s ++ String c "")) (String c ""))
      as [E|_].
    + injection E as _ E. destruct s; discriminate.
    + now rewrite IH.
Qed.

(** Either the text does not end with the suffix and is left as it is, or
    it is what is left followed by the suffix. *)
Lemma TrimSuffix_cases (s : string) c :
  strings.TrimSuffix s (String c "") = s \/
  s = (strings.TrimSuffix s (String c "") ++ String c "")%string.
Proof.
  induction s as [|x s IH]; [now left|].
  cbn [strings.TrimSuffix].
  destruct (String.eqb_spec (String x s) (String c "")) as [E|_].
  - right. now rewrite E.
  - destruct IH as [IH|IH]; [left | right].
    + now rewrite IH.
    + simpl. now rewrite <- IH.
Qed.

Lemma lines_of_newline s : lines_of (s ++ String newline "") =
                           strings.Split s newline.
Proof. unfold lines_of. now rewrite TrimSuffix_one. Qed.

Lemma padded_refl lines : padded lines lines.
Proof. induction lines; constructor; auto. Qed.

Lemma padded_end lines x : unrecognized x -> padded lines (lines ++ [x]).
Proof.
  intros Hx. induction lines as [|y lines IH]; simpl.
  - apply PaddedInsert; [assumption | constructor].
  - now apply PaddedKeep.
Qed.

Lemma unrecognized_blank : unrecognized "".
Proof. repeat split; reflexivity. Qed.

(** A text and the same text with one more line feed at its end have the
    same lines, but for a blank last line. *)
Lemma lines_of_trailing s :
  padded (lines_of s) (lines_of (s ++ String newline "")).
Proof.
  rewrite lines_of_newline. unfold lines_of.
  destruct (TrimSuffix_cases s newline) as [E|E].
  - rewrite E. apply padded_refl.
  - rewrite E at 2. rewrite (Split_app _ "" newline).
    apply padded_end, unrecognized_blank.
Qed.

(** X7.  [parseBGP] does not mind one more line feed at the end of the text: it
    makes the same commits and has the same effect on the store. *)
Theorem trailing_newline_ignored s store :
  parseBGP (s ++ String newline "") store = parseBGP s store /\
  commits (s ++ String newline "") = commits s.
Proof.
  pose proof (lines_of_trailing s) as H. split.
  - unfold parseBGP, range.
    now rewrite (padded_range _ _ H _ upsert start store consistent_start).
  - unfold commits, commits_from.
    now rewrite (padded_range _ _ H _ record start [] consistent_start).
Qed.

(** ** Before the first header *)

Lemma idle_lines {Store} (commit : string -> BgpNeighbor -> Store -> Store)
    lines st :
  Forall (fun x => MatchString bgpNeighborRegex x = false) lines ->
  range_with commit lines (start, st) = Some (start, st).
Proof.
  induction 1 as [|x lines Hx _ IH]; [reflexivity|].
  cbn [range_with]. now rewrite step_idle.
Qed.

(** X8.  A text without a header line commits nothing, whatever its other lines
    are: counters lines before the first header are not counted. *)
Theorem no_header_no_commit s store :
  Forall (fun x => MatchString bgpNeighborRegex x = false) (lines_of s) ->
  parseBGP s store = Some store /\ commits s = Some [].
Proof.
  intros H. split.
  - unfold parseBGP, range. now rewrite idle_lines.
  - unfold commits, commits_from. now rewrite idle_lines.
Qed.


(** ** Texts put end to end *)

(** From a header on, the loop does not depend on the locals it starts
    with. *)
Lemma header_restart {Store} (commit : string -> BgpNeighbor -> Store -> Store)
    h rest l st :
  MatchString bgpNeighborRegex h = true ->
  range_with commit (h :: rest) (l, st) =
    range_with commit (h :: rest) (start, st).
Proof.
  intros H. destruct (header_submatch _ H) as (a & Ha).
  cbn [range_with]. now rewrite !(step_header commit h a _ st Ha).
Qed.

Lemma lines_of_app t s2 :
  s2 <> "" ->
  lines_of (t ++ String newline s2) =
    lines_of (t ++ String newline "") ++ lines_of s2.
Proof.
  intros H. rewrite lines_of_newline. unfold lines_of.
  change (t ++ String newline s2)%string
    with (t ++ (String newline "" ++ s2))%string.
  rewrite <- append_assoc, TrimSuffix_app by assumption.
  rewrite append_assoc. simpl. apply Split_app.
Qed.

(** X9.  Parsing two texts put end to end, the first ending with a line feed
    and the second starting with a header, is parsing the first and then
    the second: nothing of the first text is carried into the second. *)
Theorem parse_concatenation t s2 h rest store :
  lines_of s2 = h :: rest ->
  MatchString bgpNeighborRegex h = true ->
  parseBGP (t ++ String newline s2) store =
    polls [(t ++ String newline "")%string; s2] store.
Proof.
  intros Hl Hh.
  assert (Hs : s2 <> "").
  { intros ->. vm_compute in Hl. injection Hl as <- _. discriminate. }
  unfold polls, parseBGP, range. rewrite (lines_of_app t s2 Hs).
  rewrite range_with_app.
  destruct (range_with_log (lines_of (t ++ String newline "")) start
              consistent_start) as (l' & log & _ & _ & H).
  rewrite H. cbn [snd]. rewrite Hl.
  rewrite (header_restart upsert h rest l' _ Hh).
  now destruct (range_with upsert (h :: rest) (start, replay upsert log store)).
Qed.

(** The two blocks of the examples put end to end. *)
Lemma parse_concatenation_example :
  parseBGP (example_block ++ recommit_block) [] =
    polls [example_block; recommit_block] [].
Proof.
  exact (parse_concatenation
           ("BGP neighbor is 10.0.0.1, remote AS ..." ++ String newline
            ("  BGP state = Established, up for 3d" ++ String newline
            ("  5 accepted prefixes" ++ String newline
             "  Connections established 12; dropped 1")))
           recommit_block
           "BGP neighbor is 10.0.0.1, remote AS ..."
           ["  Connections established 12; dropped 1";
            "  7 accepted prefixes";
            "  Connections established 13; dropped 2"]
           [] eq_refl eq_refl).
Defined.

(** A text of counters and state lines without a header. *)
Lemma no_header_no_commit_example :
  let s := ("  BGP state = Established, up for 3d" ++ String newline
            ("  Connections established 12; dropped 1" ++ String newline ""))
           %string in
  parseBGP s [example_record] = Some [example_record] /\ commits s = Some [].
Proof.
  cbv zeta.
  apply (no_header_no_commit
           ("  BGP state = Established, up for 3d" ++ String newline
            ("  Connections established 12; dropped 1" ++ String newline ""))
           [example_record]).
  repeat constructor.
Defined.

(** ** More on the commit *)

(** X12.  Of two commits in a row under the same text, the first with a record
    that is looked up by that text, only the second is left: the result is
    that of the second commit alone. *)
Theorem last_commit_wins k b1 b2 store :
  key b1 = k -> upsert k b2 (upsert k b1 store) = upsert k b2 store.
Proof.
  intros Hk.
  assert (Hp : present k (upsert k b1 store)).
  { exists b1. split; [apply upsert_In | assumption]. }
  rewrite (upsert_present k b2 _ Hp).
  destruct (present_dec k store) as [H|H].
  - rewrite !upsert_present by assumption. rewrite map_map.
    apply map_ext. intros n. unfold overwrite.
    destruct (String.eqb (key n) k) eqn:E; [|now rewrite E].
    apply String.eqb_eq in Hk. now rewrite Hk.
  - rewrite !upsert_absent by assumption. rewrite map_app.
    rewrite overwrite_absent by assumption. simpl. unfold overwrite.
    apply String.eqb_eq in Hk. now rewrite Hk.
Qed.

Lemma last_commit_wins_example :
  let b1 := mkBgpNeighbor (Some (10, 0, 0, 1)%Z) 3%Z 0%Z 1%Z 1%Z in
  let b2 := mkBgpNeighbor (Some (10, 0, 0, 1)%Z) 6%Z 9%Z 2%Z 1%Z in
  upsert "10.0.0.1" b2 (upsert "10.0.0.1" b1 [example_record]) =
    upsert "10.0.0.1" b2 [example_record].
Proof.
  cbv zeta.
  apply (last_commit_wins "10.0.0.1"
           (mkBgpNeighbor (Some (10, 0, 0, 1)%Z) 3%Z 0%Z 1%Z 1%Z)).
  reflexivity.
Defined.

(** X13.  A commit of a record that is looked up by the text it is committed
    under leaves the keys of the store, and their order, as they are when
    the text is already there, and adds the text at the end when it is
    not. *)
Theorem upsert_keys k b store :
  key b = k ->
  (present k store -> map key (upsert k b store) = map key store) /\
  (~ present k store -> map key (upsert k b store) = map key store ++ [k]).
Proof.
  intros Hk. split; intros H.
  - rewrite upsert_present by assumption. rewrite map_map.
    apply map_ext. intros n. unfold overwrite.
    destruct (String.eqb_spec (key n) k); congruence.
  - rewrite upsert_absent by assumption. rewrite map_app. simpl. now rewrite Hk.
Qed.

Lemma upsert_keys_example :
  let other := mkBgpNeighbor (Some (10, 0, 0, 2)%Z) 3%Z 0%Z 4%Z 4%Z in
  let b := mkBgpNeighbor (Some (10, 0, 0, 1)%Z) 6%Z 9%Z 13%Z 1%Z in
  map key (upsert "10.0.0.1" b [example_record; other]) =
    ["10.0.0.1"; "10.0.0.2"] /\
  map key (upsert "10.0.0.1" b [other]) = ["10.0.0.2"; "10.0.0.1"].
Proof.
  cbv zeta.
  pose proof (upsert_keys "10.0.0.1"
                (mkBgpNeighbor (Some (10, 0, 0, 1)%Z) 6%Z 9%Z 13%Z 1%Z)
                [example_record;
                 mkBgpNeighbor (Some (10, 0, 0, 2)%Z) 3%Z 0%Z 4%Z 4%Z]
                eq_refl) as [H _].
  split; [|reflexivity]. apply H.
  exists example_record. split; [now left | reflexivity].
Defined.

(** X10.  [parseBGP] returns on every text and every store.  The commits it
    makes depend on the text only, and what it does to the store is to
    upsert them in order; the store does not get shorter. *)
Theorem parseBGP_upserts_commits s :
  exists log,
    commits s = Some log /\
    forall store,
      parseBGP s store =
        Some (fold_left (fun st kb => upsert (fst kb) (snd kb) st) log store) /\
      (List.length store <=
       List.length
         (fold_left (fun st kb => upsert (fst kb) (snd kb) st) log store))%nat.
Proof.
  destruct (parseBGP_replay s) as (log & _ & Hc & Hp).
  exists log. split; [assumption|]. intros store.
  split; [apply Hp|]. clear Hc Hp. revert store.
  induction log as [|[k b] log IH]; intros store; simpl; [lia|].
  pose proof (upsert_length k b store). specialize (IH (upsert k b store)).
  lia.
Qed.

(** ** The values of the fields *)

Lemma decimal_nonneg s : forall acc v,
  (0 <= acc)%Z -> strconv.decimal s acc = Some v -> (0 <= v)%Z.
Proof.
  induction s as [|c s IH]; intros acc v Hacc H; simpl in H.
  - injection H as <-. assumption.
  - destruct (digit c) eqn:Hd; [|discriminate].
    pose proof (net_facts.digit_value_range c Hd).
    apply IH in H; [assumption | lia].
Qed.

Lemma ParseFloat_nonneg s : (0 <= fst (strconv.ParseFloat s))%Z.
Proof.
  unfold strconv.ParseFloat. destruct s as [|c s]; [simpl; lia|].
  destruct (strconv.decimal (String c s) 0) as [v|] eqn:E; cbn [fst].
  - apply strconv_facts.nearest64_nonneg.
    apply (decimal_nonneg (String c s) 0 v); [lia | assumption].
  - lia.
Qed.

Lemma state_switch_range w : (0 <= state_switch w <= 6)%Z.
Proof.
  unfold state_switch.
  repeat match goal with
         | |- context [String.eqb w ?x] => destruct (String.eqb w x); [lia|]
         end.
  lia.
Qed.

Lemma bounded_new : bounded new_BgpNeighbor.
Proof. unfold bounded; simpl; lia. Qed.

(** A turn of the loop keeps the record in progress [bounded]. *)
Lemma step_bounded {Store} (commit : string -> BgpNeighbor -> Store -> Store)
    line l st l' st' :
  locals_bounded l ->
  loop_body_with commit line (l, st) = Some (l', st') ->
  locals_bounded l'.
Proof.
  intros Hl H.
  destruct (MatchString bgpNeighborRegex line) eqn:Hh.
  { destruct (header_submatch _ Hh) as (a & Ha).
    rewrite (step_header commit line a l st Ha) in H. injection H as <- _.
    intros b Hb. injection Hb as <-. exact bounded_new. }
  destruct (string_dec (neigh l) "") as [E|E].
  { rewrite step_idle in H by assumption. now injection H as <- _. }
  destruct (bgpNeigh l) as [b|] eqn:Hb.
  2:{ unfold loop_body_with in H. rewrite Hh in H.
      apply String.eqb_neq in E. rewrite E, Hb in H. discriminate. }
  destruct (Hl b Hb) as (Hs & Hp & He & Hd).
  destruct (MatchString bgpStateRegex line) eqn:Hst.
  { destruct (state_submatch _ Hst) as (w & Hw).
    rewrite (step_state commit line w l b st Hb E Hw) in H.
    injection H as <- _. intros b' Hb'. injection Hb' as <-.
    pose proof (state_switch_range w). unfold bounded; simpl; auto. }
  destruct (MatchString bgpAcceptedPrefixesRegex line) eqn:Hpr.
  { destruct (prefixes_submatch _ Hpr) as (p & Hw).
    rewrite (step_prefixes commit line p l b st Hb E Hw) in H.
    injection H as <- _. intros b' Hb'. injection Hb' as <-.
    pose proof (ParseFloat_nonneg p). unfold bounded; simpl; auto. }
  destruct (MatchString bgpConnectionsEstablishedDroppedRegex line) eqn:Hc.
  { destruct (counters_submatch _ Hc) as (e & d & Hw).
    rewrite (step_counters commit line e d l b st Hb E Hw) in H.
    injection H as <- _. intros b' Hb'. injection Hb' as <-.
    pose proof (ParseFloat_nonneg e). pose proof (ParseFloat_nonneg d).
    unfold bounded; simpl; auto. }
  rewrite (step_other commit line l b st Hb E Hh Hst Hpr Hc) in H.
  injection H as <- _. intros b' Hb'. injection Hb' as <-.
  unfold bounded; simpl; auto.
Qed.

Lemma range_bounded lines : forall l (log : commit_log) l' log',
  consistent l -> locals_bounded l ->
  Forall (fun kb => bounded (snd kb)) log ->
  range_with record lines (l, log) = Some (l', log') ->
  Forall (fun kb => bounded (snd kb)) log'.
Proof.
  induction lines as [|line lines IH]; intros l log l' log' Hc Hl Hlog H.
  - injection H as _ <-. assumption.
  - cbn [range_with] in H.
    destruct (step_cases line l Hc) as (l1 & c & Hc1 & Hstep & _ & Hcase).
    pose proof (Hstep _ record log) as Hs. rewrite Hs in H.
    pose proof (step_bounded record line l log l1 _ Hl Hs) as Hl1.
    eapply IH; [exact Hc1 | exact Hl1 | | exact H].
    destruct c as [b|]; [|assumption].
    destruct Hcase as (_ & _ & Hb). unfold record.
    apply Forall_app. split; [assumption|].
    constructor; [|constructor]. simpl. now apply Hl1.
Qed.

Lemma replay_bounded log : forall store,
  Forall (fun kb => bounded (snd kb)) log -> Forall bounded store ->
  Forall bounded (replay upsert log store).
Proof.
  induction log as [|[k b] log IH]; intros store Hlog Hs; simpl.
  - assumption.
  - inversion Hlog as [|? ? Hb Hlog']; subst. apply IH; [assumption|].
    apply Forall_forall. intros n Hn.
    apply upsert_inv in Hn as [->|[Hn _]]; [assumption|].
    rewrite Forall_forall in Hs. auto.
Qed.

(** X11.  Whatever the text, every record that [parseBGP] commits has a state
    from 0 to 6 and counts that are not negative, and a store of such
    records is still one after [parseBGP]. *)
Theorem parseBGP_bounded s store :
  Forall bounded store ->
  exists log store',
    commits s = Some log /\ parseBGP s store = Some store' /\
    Forall (fun kb => bounded (snd kb)) log /\ Forall bounded store'.
Proof.
  intros Hs. destruct (parseBGP_replay s) as (log & _ & Hc & Hp).
  exists log, (replay upsert log store).
  assert (Hlog : Forall (fun kb => bounded (snd kb)) log).
  { unfold commits, commits_from in Hc.
    destruct (range_with record (lines_of s) (start, ([] : commit_log)))
      as [[l' log']|] eqn:E; [|discriminate].
    injection Hc as <-.
    apply (range_bounded (lines_of s) start [] l' log');
      auto using consistent_start.
    intros b Hb. discriminate. }
  repeat split; auto. now apply replay_bounded.
Qed.

Lemma parseBGP_bounded_example :
  Forall bounded [example_record] /\
  exists log store',
    commits unknown_state_block = Some log /\
    parseBGP unknown_state_block [example_record] = Some store' /\
    Forall (fun kb => bounded (snd kb)) log /\ Forall bounded store'.
Proof.
  assert (H : Forall bounded [example_record]).
  { repeat constructor; simpl; lia. }
  split; [exact H|].
  exact (parseBGP_bounded unknown_state_block [example_record] H).
Defined.

(** ** The gauges *)

Lemma Get_Set_same g k v : Get (Set_ g k v) k = Some v.
Proof.
  induction g as [|[k' x] g IH]; simpl.
  - now rewrite String.eqb_refl.
  - destruct (String.eqb k' k) eqn:E; simpl; rewrite E; auto.
Qed.

Lemma Get_Set_other g k v k' : k' <> k -> Get (Set_ g k v) k' = Get g k'.
Proof.
  intros H. induction g as [|[k0 x] g IH]; simpl.
  - apply not_eq_sym in H. apply String.eqb_neq in H. now rewrite H.
  - destruct (String.eqb_spec k0 k) as [->|E]; simpl.
    + apply not_eq_sym in H. apply String.eqb_neq in H. now rewrite H.
    + destruct (String.eqb k0 k'); auto.
Qed.


Lemma export_publish g : export g = fold_left publish (bgpNeighbors g) g.
Proof. reflexivity. Qed.

Lemma gauges_publish_same g n :
  gauges_at (publish g n) (key n) =
    (Some (State n), Some (AcceptedPrefixes n),
     Some (ConnectionsEstablished n), Some (ConnectionsDropped n)).
Proof.
  unfold gauges_at, publish, key. simpl. now rewrite !Get_Set_same.
Qed.

Lemma gauges_publish_other g n k :
  k <> key n -> gauges_at (publish g n) k = gauges_at g k.
Proof.
  intros H. unfold gauges_at, publish. simpl.
  now rewrite !Get_Set_other by exact H.
Qed.

Lemma publish_fold l : forall g,
  (forall k, ~ In k (map key l) ->
             gauges_at (fold_left publish l g) k = gauges_at g k) /\
  (forall l1 n l2,
      l = l1 ++ n :: l2 -> ~ In (key n) (map key l2) ->
      gauges_at (fold_left publish l g) (key n) =
        (Some (State n), Some (AcceptedPrefixes n),
         Some (ConnectionsEstablished n), Some (ConnectionsDropped n))).
Proof.
  induction l as [|n0 l IH]; intros g; simpl.
  - split; [reflexivity|]. intros [|? ?] ? ? E; discriminate.
  - destruct (IH (publish g n0)) as [IH1 IH2]. split.
    + intros k Hk. rewrite IH1 by tauto.
      apply gauges_publish_other. intros ->. tauto.
    + intros [|m l1] n l2 E Hn; injection E as -> ->.
      * rewrite IH1 by assumption. apply gauges_publish_same.
      * now apply (IH2 l1 n l2).
Qed.

(** X15.  After the loop of lines 79-84 the four gauges of a label hold the
    fields of the last record of the store that has this label. *)
Theorem export_sets_gauges g l1 n l2 :
  bgpNeighbors g = l1 ++ n :: l2 ->
  ~ In (key n) (map key l2) ->
  gauges_at (export g) (key n) =
    (Some (State n), Some (AcceptedPrefixes n),
     Some (ConnectionsEstablished n), Some (ConnectionsDropped n)).
Proof.
  intros E Hn. rewrite export_publish.
  now apply (proj2 (publish_fold (bgpNeighbors g) g) l1 n l2).
Qed.

(** Two records with the nil address: the gauges of label "<nil>" are
    those of the second. *)
Lemma export_sets_gauges_example :
  let r1 := mkBgpNeighbor None 0%Z 0%Z 12%Z 1%Z in
  let r2 := mkBgpNeighbor None 3%Z 4%Z 13%Z 2%Z in
  gauges_at (export (mkGlobals [example_record; r1; r2] [] [] [] [])) "<nil>" =
    (Some 3%Z, Some 4%Z, Some 13%Z, Some 2%Z).
Proof.
  cbv zeta.
  apply (export_sets_gauges
           (mkGlobals [example_record; mkBgpNeighbor None 0%Z 0%Z 12%Z 1%Z;
                       mkBgpNeighbor None 3%Z 4%Z 13%Z 2%Z] [] [] [] [])
           [example_record; mkBgpNeighbor None 0%Z 0%Z 12%Z 1%Z]
           (mkBgpNeighbor None 3%Z 4%Z 13%Z 2%Z) []).
  - reflexivity.
  - simpl. tauto.
Defined.

(** X16.  The loop of lines 79-84 leaves alone the gauges of a label that no
    record of the store has: such gauges keep the value they had. *)
Theorem export_keeps_other_gauges g k :
  ~ In k (map key (bgpNeighbors g)) ->
  gauges_at (export g) k = gauges_at g k.
Proof.
  intros H. rewrite export_publish.
  now apply (proj1 (publish_fold (bgpNeighbors g) g)).
Qed.

Lemma export_keeps_other_gauges_example :
  gauges_at (export (mkGlobals [example_record]
                       [("10.0.0.9", 6%Z)] [("10.0.0.9", 1%Z)]
                       [("10.0.0.9", 2%Z)] [("10.0.0.9", 3%Z)])) "10.0.0.9" =
    (Some 6%Z, Some 1%Z, Some 2%Z, Some 3%Z).
Proof.
  apply (export_keeps_other_gauges
           (mkGlobals [example_record]
              [("10.0.0.9", 6%Z)] [("10.0.0.9", 1%Z)]
              [("10.0.0.9", 2%Z)] [("10.0.0.9", 3%Z)]) "10.0.0.9").
  simpl. intros [H|[]]. discriminate.
Defined.

(** ** The loop of [recordMetrics] *)

Lemma Get_Set_keeps g k v k' : Get g k' <> None -> Get (Set_ g k v) k' <> None.
Proof.
  intros H. destruct (string_dec k' k) as [->|E].
  - rewrite Get_Set_same. discriminate.
  - now rewrite Get_Set_other.
Qed.

Lemma labelled_publish g n k : labelled g k -> labelled (publish g n) k.
Proof.
  intros (H1 & H2 & H3 & H4). unfold labelled, publish. simpl.
  repeat split; now apply Get_Set_keeps.
Qed.

Lemma labelled_export g k : labelled g k -> labelled (export g) k.
Proof.
  rewrite export_publish. generalize (bgpNeighbors g) as l. intros l.
  revert g. induction l as [|n l IH]; intros g H; simpl; [assumption|].
  apply IH. now apply labelled_publish.
Qed.

Lemma labelled_cycle r g g' k :
  cycle r g = Ret g' -> labelled g k -> labelled g' k.
Proof.
  unfold cycle. destruct r as [sout serr|err]; simpl; [|discriminate].
  destruct (parseBGP sout (bgpNeighbors g)) as [ns|]; [|discriminate].
  intros H Hl. injection H as <-. now apply labelled_export.
Qed.

(** X18.  The loop never takes a label away: gauges that have been set are still
    set after any number of turns, whether or not the neighbor is still in
    the text of the router. *)
Theorem labels_never_removed rs g k :
  labelled g k -> labelled (fst (recordMetrics rs g)) k.
Proof.
  revert g. induction rs as [|r rs IH]; intros g H; simpl; [assumption|].
  destruct (cycle r g) as [g'| |] eqn:E; simpl; [|assumption..].
  apply IH. now apply (labelled_cycle r g g').
Qed.

(** The gauges of 10.0.0.1 after a poll of the example, then a poll of a
    text that no longer has this neighbor. *)
Lemma labels_never_removed_example :
  let g := fst (recordMetrics [Ran example_block ""]
                  (mkGlobals [] [] [] [] [])) in
  labelled g "10.0.0.1" /\
  labelled (fst (recordMetrics [Ran short_address_block ""] g)) "10.0.0.1".
Proof.
  cbv zeta.
  assert (H : labelled (fst (recordMetrics [Ran example_block ""]
                               (mkGlobals [] [] [] [] []))) "10.0.0.1").
  { repeat split; discriminate. }
  split; [exact H|].
  exact (labels_never_removed [Ran short_address_block ""] _ "10.0.0.1" H).
Defined.

(** X19.  The loop ends in one way only: it never panics, and when the process
    has exited, it has done so with status 1 because an acquisition
    failed; as long as every acquisition succeeds it goes on. *)
Theorem loop_exits_only_on_failure rs g :
  match snd (recordMetrics rs g) with
  | Running => Forall (fun r => exists sout serr, r = Ran sout serr) rs
  | Exited code msg =>
      code = 1%Z /\
      exists err,
        In (Failed err) rs /\
        msg = ("Failed to execute vtysh command: " ++ err ++
               String newline "")%string
  | Crashed => False
  end.
Proof.
  revert g. induction rs as [|r rs IH]; intros g; simpl; [constructor|].
  destruct r as [sout serr|err].
  - destruct (cycle_Ran sout serr g) as (g' & -> & _).
    specialize (IH g'). destruct (snd (recordMetrics rs g')) as [|code msg|].
    + constructor; [now exists sout, serr | assumption].
    + destruct IH as (Hc & e & He & Hm). split; [assumption|].
      exists e. split; [now right | assumption].
    + assumption.
  - simpl. split; [reflexivity|]. exists err. split; [now left | reflexivity].
Qed.

Lemma parsed_key_not_nil n : faithful n -> parsed n = true -> key n <> "<nil>".
Proof.
  unfold faithful, parsed. intros Hf Hp E. rewrite E in Hf.
  rewrite Hf in Hp. discriminate.
Qed.

(** In a store made by [parseBGP], the key of a record with a parsed
    address is the key of no record after it. *)
Lemma parsed_key_last l1 n l2 :
  store_ok (l1 ++ n :: l2) -> parsed n = true ->
  ~ In (key n) (map key l2).
Proof.
  intros [Hf Hd] Hp Hin.
  apply in_map_iff in Hin as (m & E & Hm).
  rewrite Forall_forall in Hf.
  assert (Hfn : faithful n) by (apply Hf, in_or_app; right; now left).
  assert (Hfm : faithful m) by (apply Hf, in_or_app; right; now right).
  rewrite filter_app, map_app in Hd. apply NoDup_app_remove_l in Hd.
  simpl in Hd. rewrite Hp in Hd. simpl in Hd.
  apply NoDup_cons_iff in Hd as [Hd _].
  destruct (parsed m) eqn:Hpm.
  - apply Hd. apply in_map_iff. exists m.
    split; [assumption|]. apply filter_In. now split.
  - apply (parsed_key_not_nil n Hfn Hp). rewrite <- E.
    unfold parsed in Hpm. unfold key.
    destruct (IP m); [discriminate | reflexivity].
Qed.

(** X17.  A turn of the loop whose acquisition succeeds, on a store made by
    [parseBGP]: the turn returns, the store is what [parseBGP] makes of it,
    and for every record of the new store whose address parsed the four
    gauges labelled with its address hold its four fields. *)
Theorem cycle_publishes sout serr g :
  store_ok (bgpNeighbors g) ->
  exists g',
    cycle (Ran sout serr) g = Ret g' /\
    parseBGP sout (bgpNeighbors g) = Some (bgpNeighbors g') /\
    store_ok (bgpNeighbors g') /\
    forall n,
      In n (bgpNeighbors g') -> parsed n = true ->
      gauges_at g' (key n) =
        (Some (State n), Some (AcceptedPrefixes n),
         Some (ConnectionsEstablished n), Some (ConnectionsDropped n)).
Proof.
  intros Hs.
  destruct (parseBGP_replay sout) as (log & Hlog & _ & Hp).
  destruct (replay_ok log (bgpNeighbors g) Hs Hlog) as (Hok & _ & _).
  unfold cycle. simpl. rewrite Hp.
  eexists. split; [reflexivity|].
  rewrite export_bgpNeighbors. simpl.
  split; [reflexivity|]. split; [assumption|].
  intros n Hn Hpn. apply in_split in Hn as (l1 & l2 & E).
  rewrite export_publish. cbn [bgpNeighbors].
  apply (proj2 (publish_fold _ _) l1 n l2); [exact E|].
  rewrite E in Hok. now apply (parsed_key_last l1 n l2).
Qed.

(** A first poll of the example from the globals of a fresh process. *)
Lemma cycle_publishes_example :
  store_ok [] /\
  exists g',
    cycle (Ran example_block "") (mkGlobals [] [] [] [] []) = Ret g' /\
    parseBGP example_block [] = Some (bgpNeighbors g') /\
    store_ok (bgpNeighbors g') /\
    forall n,
      In n (bgpNeighbors g') -> parsed n = true ->
      gauges_at g' (key n) =
        (Some (State n), Some (AcceptedPrefixes n),
         Some (ConnectionsEstablished n), Some (ConnectionsDropped n)).
Proof.
  split; [exact store_ok_nil|].
  exact (cycle_publishes example_block "" (mkGlobals [] [] [] [] [])
           store_ok_nil).
Defined.

(** The store holds one record with the nil address; a commit under
    "10.0.0" adds a second one. *)
Lemma unparseable_commit_appends_example :
  let r := mkBgpNeighbor None 0%Z 0%Z 12%Z 1%Z in
  upsert "10.0.0" r [example_record; r] = [example_record; r] ++ [r].
Proof.
  cbv zeta.
  apply (unparseable_commit_appends "10.0.0"
           (mkBgpNeighbor None 0%Z 0%Z 12%Z 1%Z)
           [example_record; mkBgpNeighbor None 0%Z 0%Z 12%Z 1%Z]).
  - split.
    + repeat constructor.
    + simpl. repeat constructor. intros [].
  - reflexivity.
  - reflexivity.
Defined.

(** ** What may follow the counts *)

Lemma suffix_last (p : string) : forall s t x,
  (s ++ String x "")%string = (p ++ t)%string -> t <> "" ->
  exists t', t = (t' ++ String x "")%string.
Proof.
  induction p as [|a p IH]; intros s t x E Ht; simpl in E.
  - now exists s.
  - destruct s as [|b s]; simpl in E; injection E as _ E.
    + destruct p; simpl in E; [congruence | discriminate].
    + now apply (IH s).
Qed.

Lemma append_last_inj (s p : string) x y :
  (s ++ String x "")%string = (p ++ String y "")%string -> x = y.
Proof.
  revert p. induction s as [|a s IH]; intros [|b p] E; simpl in E.
  - now injection E.
  - injection E as _ E. destruct p; discriminate.
  - injection E as _ E. destruct s; discriminate.
  - injection E as _ E. now apply (IH p).
Qed.

Lemma digit_word a : digit a = true -> word a = true.
Proof. unfold word. now intros ->. Qed.

Lemma all_digit_word s : all digit s = true -> all word s = true.
Proof.
  induction s as [|a s IH]; simpl; [reflexivity|].
  intros H. apply andb_prop in H as [Ha Hs].
  now rewrite (digit_word a Ha), IH.
Qed.

Lemma all_last c s x : all c (s ++ String x "") = true -> c x = true.
Proof.
  rewrite all_app. simpl. intros H. apply andb_prop in H as [_ H].
  now rewrite andb_true_r in H.
Qed.

(** X6.  An accepted-prefixes line or a counters line must end with its count
    or with letters, digits and underscores: no text that ends with any
    other character (a space, a full stop, the carriage return of a line
    that ended with CR LF) matches either pattern, and so sets no field
    and makes no commit. *)
Theorem trailing_character_rejected line x :
  word x = false ->
  MatchString bgpAcceptedPrefixesRegex (line ++ String x "") = false /\
  MatchString bgpConnectionsEstablishedDroppedRegex (line ++ String x "") =
    false.
Proof.
  intros Hx. split.
  - destruct (MatchString bgpAcceptedPrefixesRegex (line ++ String x ""))
      eqn:M; [exfalso | reflexivity].
    apply prefixes_submatch in M as (n & M).
    apply submatch_exec, prefixes_sound in M
      as (ws & tail & E & _ & _ & _ & _ & Htail).
    rewrite <- !append_assoc in E.
    destruct tail as [|a tail].
    + rewrite append_nil_r in E.
      change " accepted prefixes"
        with (" accepted prefixe" ++ String "s" "")%string in E.
      rewrite <- append_assoc in E.
      apply append_last_inj in E. subst x. discriminate.
    + apply suffix_last in E as (t' & E); [|discriminate].
      rewrite E in Htail. apply all_last in Htail. congruence.
  - destruct (MatchString bgpConnectionsEstablishedDroppedRegex
                (line ++ String x "")) eqn:M; [exfalso | reflexivity].
    apply counters_submatch in M as (e & d & M).
    apply submatch_exec, counters_sound in M
      as (ws & tail & E & _ & _ & _ & _ & Hd & Hdd & Htail).
    rewrite <- !append_assoc in E.
    rewrite append_assoc in E.
    apply suffix_last in E as (t' & E);
      [|destruct d; [congruence | discriminate]].
    assert (H : all word (d ++ tail) = true)
      by (now rewrite all_app, (all_digit_word d Hdd), Htail).
    rewrite E in H. apply all_last in H. congruence.
Qed.

(** The counters line of the example followed by a carriage return. *)
Lemma trailing_character_rejected_example :
  MatchString bgpAcceptedPrefixesRegex
    ("  5 accepted prefixes" ++ String (ascii_of_N 13) "") = false /\
  MatchString bgpConnectionsEstablishedDroppedRegex
    ("  Connections established 12; dropped 1" ++ String (ascii_of_N 13) "") =
    false.
Proof.
  split.
  - exact (proj1 (trailing_character_rejected "  5 accepted prefixes"
                    (ascii_of_N 13) eq_refl)).
  - exact (proj2 (trailing_character_rejected
                    "  Connections established 12; dropped 1"
                    (ascii_of_N 13) eq_refl)).
Defined.
